(** * proglog: the storage core of the commit log

    A shallow embedding of the Go package [internal/log] (store, index and
    segment) and the properties of its specification.

    Go's fixed-width integers are integers of [Z] with the wrap-around written
    out ([u64], [u32], [i64]); byte slices are [list byte]; a method that
    mutates its receiver returns the new receiver next to its result; a call
    ends in a value, in an [error], or in a run-time panic ([outcome]). *)

From Stdlib Require Import Strings.Byte Strings.String.
From Stdlib Require Import ZArith List Bool Lia.
Import ListNotations.
Local Open Scope Z_scope.

(** ** Machine integers *)

Definition u64 (z : Z) : Z := z mod 2 ^ 64.
Definition u32 (z : Z) : Z := z mod 2 ^ 32.
(** [int64(x)]: the two's complement reading of the low 64 bits. *)
Definition i64 (z : Z) : Z := (z + 2 ^ 63) mod 2 ^ 64 - 2 ^ 63.

(** [len(b)] of a slice. *)
Definition len {A} (l : list A) : Z := Z.of_nat (length l).

(** ** Results of a call *)

Inductive error : Type :=
| EOF               (* io.EOF *)
| ErrShortWrite     (* io.ErrShortWrite *)
| ENOSPC            (* no space left on device *)
| EINVAL            (* invalid argument *)
| ErrNegativeOffset (* os: negative offset *)
| ErrCodec.         (* a failure of the record codec *)

Inductive outcome (A : Type) : Type :=
| Ok (a : A)
| Err (e : error)
| Panic.
Arguments Ok {A} a.
Arguments Err {A} e.
Arguments Panic {A}.

Definition is_Ok {A} (o : outcome A) : bool :=
  match o with Ok _ => true | _ => false end.

(** [err == nil] *)
Definition noError (e : option error) : bool :=
  match e with None => true | Some _ => false end.

(** ** encoding/binary, big endian ([enc = binary.BigEndian]) *)

Definition byte_of_Z (z : Z) : byte :=
  match Byte.of_N (Z.to_N (z mod 256)) with
  | Some b => b
  | None => x00
  end.

Definition Z_of_byte (b : byte) : Z := Z.of_N (Byte.to_N b).

Module enc.

Definition PutUint32 (v : Z) : list byte :=
  [ byte_of_Z (Z.shiftr v 24); byte_of_Z (Z.shiftr v 16);
    byte_of_Z (Z.shiftr v 8); byte_of_Z v ].

Definition PutUint64 (v : Z) : list byte :=
  [ byte_of_Z (Z.shiftr v 56); byte_of_Z (Z.shiftr v 48);
    byte_of_Z (Z.shiftr v 40); byte_of_Z (Z.shiftr v 32);
    byte_of_Z (Z.shiftr v 24); byte_of_Z (Z.shiftr v 16);
    byte_of_Z (Z.shiftr v 8); byte_of_Z v ].

(** [Uint32(b)] reads [b[0..3]]; [None] is the bounds-check panic of a
    slice shorter than four bytes. *)
Definition Uint32 (b : list byte) : option Z :=
  match b with
  | b0 :: b1 :: b2 :: b3 :: _ =>
      Some (Z.lor (Z.lor (Z.lor (Z_of_byte b3) (Z.shiftl (Z_of_byte b2) 8))
                         (Z.shiftl (Z_of_byte b1) 16))
                  (Z.shiftl (Z_of_byte b0) 24))
  | _ => None
  end.

Definition Uint64 (b : list byte) : option Z :=
  match b with
  | b0 :: b1 :: b2 :: b3 :: b4 :: b5 :: b6 :: b7 :: _ =>
      Some (Z.lor (Z.lor (Z.lor (Z.lor (Z.lor (Z.lor (Z.lor
             (Z_of_byte b7)
             (Z.shiftl (Z_of_byte b6) 8))
             (Z.shiftl (Z_of_byte b5) 16))
             (Z.shiftl (Z_of_byte b4) 24))
             (Z.shiftl (Z_of_byte b3) 32))
             (Z.shiftl (Z_of_byte b2) 40))
             (Z.shiftl (Z_of_byte b1) 48))
             (Z.shiftl (Z_of_byte b0) 56))
  | _ => None
  end.

End enc.

(** ** Slices of a byte slice

    [slice m lo hi] is the slice expression [m[lo:hi]]: its indices must
    satisfy [0 <= lo <= hi <= cap(m)], and Go panics otherwise ([None]).  The
    mapped region has its capacity equal to its length. *)

Definition slice (m : list byte) (lo hi : Z) : option (list byte) :=
  if (0 <=? lo) && (lo <=? hi) && (hi <=? len m)
  then Some (firstn (Z.to_nat (hi - lo)) (skipn (Z.to_nat lo) m))
  else None.

(** Writing the bytes [bs] through the slice [m[lo:hi]], as
    [enc.PutUint32(m[lo:hi], v)] does: the slice expression is checked first,
    then the slice must be long enough for [bs]; the bytes land in [m], which
    the slice aliases. *)
Definition put (m : list byte) (lo hi : Z) (bs : list byte) : option (list byte) :=
  match slice m lo hi with
  | None => None
  | Some b =>
      if len bs <=? len b
      then Some (firstn (Z.to_nat lo) m ++ bs ++ skipn (Z.to_nat (lo + len bs)) m)
      else None
  end.

(** [zeros n]: the bytes a file gains when it is truncated upwards. *)
Definition zeros (n : Z) : list byte := repeat x00 (Z.to_nat n).

(** [resize n l]: the contents of a file after [Truncate(n)]. *)
Definition resize (n : Z) (l : list byte) : list byte :=
  firstn (Z.to_nat n) l ++ zeros (n - len l).

(** ** Files

    The files of a segment, named as [newSegment] names them. *)

Inductive fname : Type :=
| StoreName (baseOffset : Z)   (* fmt.Sprintf("%d%s", baseOffset, ".store") *)
| IndexName (baseOffset : Z).  (* fmt.Sprintf("%d%s", baseOffset, ".index") *)

Definition fname_eqb (a b : fname) : bool :=
  match a, b with
  | StoreName x, StoreName y => x =? y
  | IndexName x, IndexName y => x =? y
  | _, _ => false
  end.

(** The directory of a log: the contents of its files, and the number of
    bytes the device still takes ([free]); writing past it fails with
    [ENOSPC]. *)
Record dir : Type := mkDir {
  files : fname -> option (list byte);
  free : Z
}.

Definition emptyDir (free : Z) : dir := mkDir (fun _ => None) free.

Definition writeFile (d : dir) (n : fname) (data : list byte) : dir :=
  mkDir (fun m => if fname_eqb m n then Some data else files d m) (free d).


(** An open file ([*os.File]): its name, its contents, and the room left on
    its device. *)
Record osfile : Type := mkFile {
  fileName : fname;
  fdata : list byte;
  room : Z
}.

(** [os.OpenFile(name, os.O_RDWR|os.O_CREATE|..., 0644)]: the file is created
    empty when it does not exist. *)
Definition OpenFile (d : dir) (n : fname) : osfile :=
  match files d n with
  | Some data => mkFile n data (free d)
  | None => mkFile n [] (free d)
  end.

Module File.

(** [f.Write(p)] on a file opened with [O_APPEND]: the bytes that fit are
    appended; a write that does not fit reports the bytes written and
    [ENOSPC]. *)
Definition Write (f : osfile) (p : list byte) : (Z * option error) * osfile :=
  let space := Z.max 0 (room f) in
  if len p <=? space
  then ((len p, None), mkFile (fileName f) (fdata f ++ p) (space - len p))
  else ((space, Some ENOSPC),
        mkFile (fileName f) (fdata f ++ firstn (Z.to_nat space) p) 0).

(** [f.ReadAt(b, off)] with [len(b) = n]: the bytes read, and [EOF] when
    the file ends before [n] bytes were read.  A negative offset is
    refused; an empty buffer reads nothing and reports no error. *)
Definition ReadAt (f : osfile) (n : Z) (off : Z) : list byte * option error :=
  if off <? 0 then ([], Some ErrNegativeOffset)
  else
    let got := firstn (Z.to_nat n) (skipn (Z.to_nat off) (fdata f)) in
    if len got <? n then (got, Some EOF) else (got, None).

End File.

(** ** bufio.Writer

    The buffered writer of the standard library, with its default buffer of
    4096 bytes and its sticky error. *)

Module bufio.

Definition defaultBufSize : Z := 4096.

Record Writer : Type := mkWriter {
  wr : osfile;         (* the underlying writer *)
  buf : list byte;     (* b.buf[0:b.n], the bytes not yet written *)
  err : option error   (* the sticky error *)
}.

Definition NewWriter (f : osfile) : Writer := mkWriter f [] None.

Definition Available (b : Writer) : Z := defaultBufSize - len (buf b).
Definition Buffered (b : Writer) : Z := len (buf b).

Definition Flush (b : Writer) : option error * Writer :=
  match err b with
  | Some e => (Some e, b)
  | None =>
      if Buffered b =? 0 then (None, b)
      else
        let '((n, e), f) := File.Write (wr b) (buf b) in
        let e := match e with
                 | None => if n <? Buffered b then Some ErrShortWrite else None
                 | Some _ => e
                 end in
        match e with
        | Some e' => (Some e', mkWriter f (skipn (Z.to_nat n) (buf b)) (Some e'))
        | None => (None, mkWriter f [] None)
        end
  end.

(** [copy(b.buf[b.n:], p)]: the number of bytes copied. *)
Definition copied (b : Writer) (p : list byte) : Z :=
  Z.min (Z.max 0 (Available b)) (len p).

(** The loop of [Writer.Write]:
    [for len(p) > b.Available() && b.err == nil { ... }].
    It returns the writer, the rest of [p] and the count [nn]. *)
Fixpoint Write_loop (fuel : nat) (b : Writer) (p : list byte) (nn : Z)
  : Writer * list byte * Z :=
  match fuel with
  | O => (b, p, nn)
  | S fuel' =>
      if (len p >? Available b) && noError (err b) then
        if Buffered b =? 0 then
          (* large write, empty buffer: written directly from p *)
          let '((n, e), f) := File.Write (wr b) p in
          Write_loop fuel' (mkWriter f (buf b) e)
                     (skipn (Z.to_nat n) p) (nn + n)
        else
          (* n = copy(b.buf[b.n:], p); b.n += n; b.Flush() *)
          let n := copied b p in
          let b1 := mkWriter (wr b) (buf b ++ firstn (Z.to_nat n) p) (err b) in
          let '(_, b2) := Flush b1 in
          Write_loop fuel' b2 (skipn (Z.to_nat n) p) (nn + n)
      else (b, p, nn)
  end.

(** Over a file the loop runs at most twice, a flush of the buffer and
    then a direct write: more fuel changes nothing
    ([bufio_Write_loop_fuel]). *)
Definition Write (b : Writer) (p : list byte) : (Z * option error) * Writer :=
  let '(b', p', nn) := Write_loop 2 b p 0 in
  match err b' with
  | Some e => ((nn, Some e), b')
  | None => ((nn + len p', None), mkWriter (wr b') (buf b' ++ p') None)
  end.

End bufio.

(** [binary.Write(w, enc, v)] for a [uint64]: the eight bytes go to the
    writer, and only the error is returned. *)
Definition binary_Write (w : bufio.Writer) (v : Z) : option error * bufio.Writer :=
  let '((_, e), w') := bufio.Write w (enc.PutUint64 v) in (e, w').

(** ** store: the record store (length-prefixed frames over a file) *)

(** number of bytes used to store a record's length *)
Definition lenWidth : Z := 8.

(** The largest allocation of the Go runtime on a 64-bit platform:
    [make([]byte, n)] panics for a larger [n]. *)
Definition maxAlloc : Z := 2 ^ 48.

Module store.

(** [File] and the writer's underlying file are the same [*os.File]: the
    store keeps the one inside its writer. *)
Record store : Type := mkStore {
  buf : bufio.Writer;
  size : Z
}.

Definition File (s : store) : osfile := bufio.wr (buf s).

Definition newStore (f : osfile) : outcome store :=
  let size := u64 (len (fdata f)) in
  Ok (mkStore (bufio.NewWriter f) size).

(** Writes data to the store's buffer, returns the total number of bytes
    written to the buffer, where the record starts, and error. *)
Definition Append (s : store) (data : list byte) : outcome (Z * Z) * store :=
  let pos := size s in
  let '(e, b1) := binary_Write (buf s) (u64 (len data)) in
  match e with
  | Some e => (Err e, mkStore b1 (size s))
  | None =>
      let '((bytesWritten, e), b2) := bufio.Write b1 data in
      match e with
      | Some e => (Err e, mkStore b2 (size s))
      | None =>
          let bytesWritten := i64 (bytesWritten + lenWidth) in
          (Ok (u64 bytesWritten, pos),
           mkStore b2 (u64 (size s + u64 bytesWritten)))
      end
  end.

(** Read a record at a given position. *)
Definition Read (s : store) (pos : Z) : outcome (list byte) * store :=
  let '(e, b) := bufio.Flush (buf s) in
  let s := mkStore b (size s) in
  match e with
  | Some e => (Err e, s)
  | None =>
      let '(size, e) := File.ReadAt (File s) lenWidth (i64 pos) in
      match e with
      | Some e => (Err e, s)
      | None =>
          match enc.Uint64 size with
          | None => (Panic, s)
          | Some n =>
              if maxAlloc <? n then (Panic, s)
              else
                let '(recordSlice, e) :=
                  File.ReadAt (File s) n (i64 (u64 (pos + lenWidth))) in
                match e with
                | Some e => (Err e, s)
                | None => (Ok recordSlice, s)
                end
          end
      end
  end.

(** [ReadAt(b, offset)] with [len(b) = n]: the bytes read into [b], their
    number and the error. *)
Definition ReadAt (s : store) (n : Z) (offset : Z)
  : (list byte * Z * option error) * store :=
  let '(e, b) := bufio.Flush (buf s) in
  let s := mkStore b (size s) in
  match e with
  | Some e => (([], 0, Some e), s)
  | None =>
      let '(got, e) := File.ReadAt (File s) n offset in
      ((got, len got, e), s)
  end.

(** Persist buffered data before closing file. *)
Definition Close (s : store) : option error * store :=
  let '(e, b) := bufio.Flush (buf s) in
  (e, mkStore b (size s)).

Definition Name (s : store) : fname := fileName (File s).

End store.

(** ** Configuration *)

Record SegmentConfig : Type := mkSegmentConfig {
  MaxStoreBytes : Z;
  MaxIndexBytes : Z;
  InitialOffset : Z
}.

Record Config : Type := mkConfig { Segment : SegmentConfig }.

(** ** index: the offset index (fixed-width entries in a mapped file) *)

Definition offWidth : Z := 4.  (* record's offset *)
Definition posWidth : Z := 8.  (* record's position *)
Definition entryWidth : Z := offWidth + posWidth.

Module index.

(** The region is mapped [MAP_SHARED]: [mmap] is the contents of the file,
    over its whole preallocated length. *)
Record index : Type := mkIndex {
  file : fname;
  mmap : list byte;
  size : Z
}.

(** The file is truncated to [MaxIndexBytes] and mapped.  [os.Truncate]
    refuses a negative length and the mapping of an empty file fails. *)
Definition newIndex (f : osfile) (c : Config) : outcome index :=
  let size := u64 (len (fdata f)) in
  let n := i64 (MaxIndexBytes (Segment c)) in
  if n <? 0 then Err EINVAL
  else if n =? 0 then Err EINVAL
  else Ok (mkIndex (fileName f) (resize n (fdata f)) size).

(** The file is truncated down to [size] and closed: the result is what
    the file holds afterwards. *)
Definition Close (idx : index) : option error * list byte :=
  let n := i64 (size idx) in
  if n <? 0 then (Some EINVAL, mmap idx)
  else (None, resize n (mmap idx)).

(** Get the store position for an entry at a given offset in our index.
    Use -1 to get the last entry. *)
Definition Read (idx : index) (offsetGiven : Z) : outcome (Z * Z) :=
  if size idx =? 0 then Err EOF
  else
    let offsetUsed :=
      if offsetGiven =? -1
      then u32 (u32 (size idx) / u32 entryWidth - 1)
      else u32 offsetGiven in
    (* make sure we've actually got 12 bytes to read *)
    if u64 (u64 (offsetUsed * entryWidth) + entryWidth) >? size idx then Err EOF
    else
      let entryStart := u64 (offsetUsed * entryWidth) in
      (* enc.Uint32(idx.mmap[entryStart:offWidth]) *)
      match slice (mmap idx) entryStart offWidth with
      | None => Panic
      | Some b =>
          match enc.Uint32 b with
          | None => Panic
          | Some offsetUsed =>
              (* enc.Uint64(idx.mmap[entryStart+offWidth : entryStart+entryWidth]) *)
              match slice (mmap idx) (u64 (entryStart + offWidth))
                          (u64 (entryStart + entryWidth)) with
              | None => Panic
              | Some b =>
                  match enc.Uint64 b with
                  | None => Panic
                  | Some storePosition => Ok (offsetUsed, storePosition)
                  end
              end
          end
      end.

(** Appends an entry with the provided offset and store location to the
    mmap index. *)
Definition Write (idx : index) (offset storePosition : Z) : outcome unit * index :=
  if len (mmap idx) <? u64 (u64 (size idx) + entryWidth) (* check for room *)
  then (Err EOF, idx)
  else
    match put (mmap idx) (size idx) (u64 (size idx + offWidth))
              (enc.PutUint32 offset) with
    | None => (Panic, idx)
    | Some m1 =>
        match put m1 (u64 (size idx + offWidth)) (u64 (size idx + entryWidth))
                  (enc.PutUint64 storePosition) with
        | None => (Panic, mkIndex (file idx) m1 (size idx))
        | Some m2 =>
            (Ok tt, mkIndex (file idx) m2 (u64 (size idx + u64 entryWidth)))
        end
    end.

Definition Name (idx : index) : fname := file idx.

End index.

(** ** Records and their codec *)

Module api.

(** Modelled from the spec: the type [api.Record] is generated code outside
    this package; a record is "a byte payload plus an assigned logical
    offset". *)
Record record : Type := mkRecord {
  Value : list byte;
  Offset : Z
}.

End api.

(** Modelled from the spec: the codec of records ([proto.Marshal] and
    [proto.Unmarshal]) is "a pluggable dependency" of the package; the
    segment is defined over any codec. *)
Class Codec : Type := {
  Marshal : api.record -> outcome (list byte);
  Unmarshal : list byte -> outcome api.record
}.

(** A codec for the examples: the offset as eight big-endian bytes, then the
    payload. *)
Definition frameMarshal (r : api.record) : outcome (list byte) :=
  Ok (enc.PutUint64 (api.Offset r) ++ api.Value r).

Definition frameUnmarshal (b : list byte) : outcome api.record :=
  match enc.Uint64 b with
  | Some off => Ok (api.mkRecord (skipn 8 b) off)
  | None => Err ErrCodec
  end.

Definition frameCodec : Codec := Build_Codec frameMarshal frameUnmarshal.

(** ** segment: one store and one index, and the offsets between them *)

Module segment.

Record segment : Type := mkSegment {
  store : store.store;    (* this segment's store *)
  index : index.index;    (* this segment's index *)
  baseOffset : Z;
  nextOffset : Z;
  config : Config
}.

(** The segment over the files of [dir] named after [baseOffset]; they are
    created when they do not exist.  The segment is the sole user of its
    two files until it is closed. *)
Definition newSegment (d : dir) (baseOffset : Z) (c : Config) : outcome segment :=
  let storeFile := OpenFile d (StoreName baseOffset) in
  match store.newStore storeFile with
  | Err e => Err e
  | Panic => Panic
  | Ok st =>
      let indexFile := OpenFile d (IndexName baseOffset) in
      match index.newIndex indexFile c with
      | Err e => Err e
      | Panic => Panic
      | Ok idx =>
          (* Tries to read last element of the index file. *)
          match index.Read idx (-1) with
          | Panic => Panic
          | Err _ => Ok (mkSegment st idx baseOffset baseOffset c)
          | Ok (off, _) =>
              Ok (mkSegment st idx baseOffset
                            (u64 (u64 (baseOffset + u64 off) + 1)) c)
          end
      end
  end.

Section WithCodec.

Context {codec : Codec}.

(** Writes record to segment and returns the offset of the appended
    record.  The result of [s.store.Append] is bound to [err], and [err]
    is assigned again by the index write before it is looked at. *)
Definition Append (s : segment) (record : api.record) : outcome Z * segment :=
  let recordOffset := nextOffset s in
  let record := api.mkRecord (api.Value record) recordOffset in
  match Marshal record with
  | Err e => (Err e, s)
  | Panic => (Panic, s)
  | Ok p =>
      (* append record to store *)
      let '(r, st) := store.Append (store s) p in
      let recordStart := match r with Ok (_, pos) => pos | _ => 0 end in
      (* update index to reflect newly appended record *)
      let '(w, idx) :=
        index.Write (index s)
                    (u32 (u64 (nextOffset s - u64 (baseOffset s))))
                    recordStart in
      match w with
      | Err e => (Err e, mkSegment st idx (baseOffset s) (nextOffset s) (config s))
      | Panic => (Panic, mkSegment st idx (baseOffset s) (nextOffset s) (config s))
      | Ok _ =>
          (Ok recordOffset,
           mkSegment st idx (baseOffset s) (u64 (nextOffset s + 1)) (config s))
      end
  end.

(** Reads entry at a given offset by converting the offset to an index
    offset, and then reading from the location in the store file
    indicated by the index. *)
Definition Read (s : segment) (offset : Z) : outcome api.record * segment :=
  match index.Read (index s) (i64 (u64 (offset - baseOffset s))) with
  | Err e => (Err e, s)
  | Panic => (Panic, s)
  | Ok (_, storePosition) =>
      let '(r, st) := store.Read (store s) storePosition in
      let s := mkSegment st (index s) (baseOffset s) (nextOffset s) (config s) in
      match r with
      | Err e => (Err e, s)
      | Panic => (Panic, s)
      | Ok entry => (Unmarshal entry, s)
      end
  end.

(** The appends of a caller, one after the other; a panic ends the run. *)
Fixpoint Appends (s : segment) (rs : list api.record)
  : list (outcome Z) * segment :=
  match rs with
  | [] => ([], s)
  | r :: rs' =>
      let '(o, s1) := Append s r in
      match o with
      | Panic => ([Panic], s1)
      | _ => let '(os, s2) := Appends s1 rs' in (o :: os, s2)
      end
  end.

End WithCodec.

(** Check if we have exceeded limits for either our index or store. *)
Definition IsMaxed (s : segment) : bool :=
  (store.size (store s) >=? MaxStoreBytes (Segment (config s)))
  || (index.size (index s) >=? MaxIndexBytes (Segment (config s))).

(** Close the index and the store associated with the segment; the
    directory afterwards holds what the two files hold. *)
Definition Close (s : segment) (d : dir) : option error * dir :=
  let '(e, idata) := index.Close (index s) in
  let d := writeFile d (index.Name (index s)) idata in
  match e with
  | Some e =>
      (Some e, mkDir (files (writeFile d (store.Name (store s))
                                       (fdata (store.File (store s)))))
                     (room (store.File (store s))))
  | None =>
      let '(e, st) := store.Close (store s) in
      (e, mkDir (files (writeFile d (store.Name st) (fdata (store.File st))))
                (room (store.File st)))
  end.


(** Returns the multiple of desiredMultiple nearest to the value of
    numToCheck.  Both are [uint64]: the comparison with 0 is the one of the
    source, and a division by zero panics. *)
Definition nearestMultiple (s : segment) (numToCheck desiredMultiple : Z)
  : outcome Z :=
  if numToCheck <? 0 then
    if desiredMultiple =? 0 then Panic
    else Ok (u64 (u64 (u64 (u64 (numToCheck - desiredMultiple) + 1) / desiredMultiple)
                  * desiredMultiple))
  else
    if desiredMultiple =? 0 then Panic
    else Ok (u64 (numToCheck / desiredMultiple * desiredMultiple)).

End segment.

(** A directory in which the segment of [baseOffset] has no file yet. *)
Definition fresh (d : dir) (baseOffset : Z) : Prop :=
  files d (StoreName baseOffset) = None /\ files d (IndexName baseOffset) = None.

(** The segment that [newSegment] returns, when it returns one. *)
Definition mkSegmentOf (d : dir) (baseOffset : Z) (c : Config) : segment.segment :=
  match segment.newSegment d baseOffset c with
  | Ok s => s
  | _ =>
      segment.mkSegment
        (store.mkStore (bufio.NewWriter (OpenFile d (StoreName baseOffset))) 0)
        (index.mkIndex (IndexName baseOffset) [] 0)
        baseOffset baseOffset c
  end.

(** The successful results of a run, in order. *)
Fixpoint successes {A} (os : list (outcome A)) : list A :=
  match os with
  | [] => []
  | Ok a :: os' => a :: successes os'
  | _ :: os' => successes os'
  end.

(** ** The scenario of the specification

    [baseOffset = 16], the payload ["hello world"], a store of at most 1024
    bytes and an index of three entries. *)

Definition hello : list byte := list_byte_of_string "hello world".

Definition want : api.record := api.mkRecord hello 0.

Definition testConfig : Config := mkConfig (mkSegmentConfig 1024 (entryWidth * 3) 0).

Definition testDir : dir := emptyDir (2 ^ 30).

(** A device with room for 1000 more bytes, and a payload that fills the
    buffer of the writer. *)
Definition smallDir : dir := emptyDir 1000.

Definition large : list byte := repeat "x"%byte 5000.

(** The index of a fresh file of [testDir], with room for three entries, and
    the same index once it is full. *)
Definition testIndex : index.index :=
  index.mkIndex (IndexName 16) (zeros (entryWidth * 3)) 0.

Definition fullIndex : index.index :=
  snd (index.Write (snd (index.Write (snd (index.Write testIndex 0 0)) 1 27)) 2 54).

(** The store of a fresh file of [testDir], and the one of [smallDir]. *)
Definition testStore : store.store :=
  store.mkStore (bufio.NewWriter (OpenFile testDir (StoreName 16))) 0.

Definition smallStore : store.store :=
  store.mkStore (bufio.NewWriter (OpenFile smallDir (StoreName 16))) 0.

(** ** What the properties are stated with *)

(** The entry that [index.Write] leaves in the mapped region. *)
Definition written (idx : index.index) (offset storePosition : Z) : index.index :=
  index.mkIndex (index.file idx)
    (firstn (Z.to_nat (index.size idx)) (index.mmap idx)
       ++ enc.PutUint32 offset ++ enc.PutUint64 storePosition
       ++ skipn (Z.to_nat (index.size idx + entryWidth)) (index.mmap idx))
    (index.size idx + entryWidth).

(** The sizes an index can have: the size of a file is an [int64], and a
    write only advances [size] inside the mapped region. *)
Definition index_ok (idx : index.index) : Prop :=
  0 <= index.size idx < 2 ^ 63 /\ len (index.mmap idx) < 2 ^ 63.

(** What the file of a store holds once its buffer is flushed. *)
Definition contents (s : store.store) : list byte :=
  fdata (store.File s) ++ bufio.buf (store.buf s).

(** The invariant of a store: no write has failed, and [size] is the end of
    the data, those still in the buffer included. *)
Definition store_ok (s : store.store) : Prop :=
  bufio.err (store.buf s) = None /\ store.size s = len (contents s).

(** The device has room for the bytes that wait in the buffer. *)
Definition flushable (s : store.store) : Prop :=
  len (bufio.buf (store.buf s)) <= room (store.File s).

(** A run of appends that all succeed. *)
Fixpoint store_Appends (s : store.store) (ds : list (list byte)) : option store.store :=
  match ds with
  | [] => Some s
  | d :: ds' =>
      match store.Append s d with
      | (Ok _, s1) => store_Appends s1 ds'
      | _ => None
      end
  end.

(** The frame of a payload in the file of a store: its length in eight
    big-endian bytes, then its bytes. *)
Definition frame (data : list byte) : list byte :=
  enc.PutUint64 (len data) ++ data.

(** A run of writes to an index; a panic ends the run. *)
Fixpoint index_Writes (idx : index.index) (es : list (Z * Z))
  : list (outcome unit) * index.index :=
  match es with
  | [] => ([], idx)
  | (offset, storePosition) :: es' =>
      let '(r, idx1) := index.Write idx offset storePosition in
      match r with
      | Panic => ([Panic], idx1)
      | _ => let '(rs, idx2) := index_Writes idx1 es' in (r :: rs, idx2)
      end
  end.


(** The case analysis on the position of a bit among the bytes of a word. *)
Ltac bit_ranges :=
  repeat match goal with
         | |- context [?a <=? ?b] => destruct (Z.leb_spec a b); try lia
         | |- context [?a <? ?b] => destruct (Z.ltb_spec a b); try lia
         end;
  rewrite ?andb_false_r; try reflexivity.

(** * Properties *)

(** ** Lists and machine integers *)

Lemma len_nonneg {A} (l : list A) : 0 <= len l.
Proof. unfold len. lia. Qed.

Lemma len_app {A} (l1 l2 : list A) : len (l1 ++ l2) = len l1 + len l2.
Proof. unfold len. rewrite length_app. lia. Qed.

Lemma len_firstn {A} (n : Z) (l : list A) :
  0 <= n <= len l -> len (firstn (Z.to_nat n) l) = n.
Proof. unfold len. intros H. rewrite length_firstn. lia. Qed.

Lemma len_skipn {A} (n : Z) (l : list A) :
  0 <= n <= len l -> len (skipn (Z.to_nat n) l) = len l - n.
Proof. unfold len. intros H. rewrite length_skipn. lia. Qed.

Lemma u64_small (z : Z) : 0 <= z < 2 ^ 64 -> u64 z = z.
Proof. intros H. unfold u64. apply Z.mod_small. exact H. Qed.

Lemma u32_small (z : Z) : 0 <= z < 2 ^ 32 -> u32 z = z.
Proof. intros H. unfold u32. apply Z.mod_small. exact H. Qed.

Lemma u64_range (z : Z) : 0 <= u64 z < 2 ^ 64.
Proof. unfold u64. apply Z.mod_pos_bound. lia. Qed.

Lemma u32_range (z : Z) : 0 <= u32 z < 2 ^ 32.
Proof. unfold u32. apply Z.mod_pos_bound. lia. Qed.

Lemma u64_i64 (z : Z) : u64 (i64 z) = u64 z.
Proof.
  unfold u64, i64.
  rewrite Zminus_mod, Zmod_mod, <- Zminus_mod.
  f_equal. lia.
Qed.

Lemma u64_add_l (a b : Z) : u64 (u64 a + b) = u64 (a + b).
Proof. unfold u64. apply Zplus_mod_idemp_l. Qed.

Lemma u64_add_r (a b : Z) : u64 (a + u64 b) = u64 (a + b).
Proof. unfold u64. apply Zplus_mod_idemp_r. Qed.

(** ** The buffered writer *)

Lemma File_Write_count (f f' : osfile) (p : list byte) (n : Z) (e : option error) :
  File.Write f p = ((n, e), f') ->
  0 <= n <= len p /\ (e = None -> n = len p).
Proof.
  unfold File.Write. intros H.
  pose proof (len_nonneg p) as Hp.
  destruct (len p <=? Z.max 0 (room f)) eqn:Hfit; inversion H; subst.
  - split; [lia | reflexivity].
  - apply Z.leb_gt in Hfit. split; [lia | discriminate].
Qed.

Lemma bufio_Flush_result (b b' : bufio.Writer) (o : option error) :
  bufio.Flush b = (o, b') ->
  bufio.err b' = o /\ (o = None -> bufio.buf b' = []).
Proof.
  unfold bufio.Flush. intros H.
  destruct (bufio.err b) as [e|] eqn:He.
  - inversion H; subst. split; [assumption | discriminate].
  - destruct (bufio.Buffered b =? 0) eqn:Hn.
    + inversion H; subst. split; [assumption|]. intros _.
      apply Z.eqb_eq in Hn. unfold bufio.Buffered, len in Hn.
      destruct (bufio.buf b'); [reflexivity | simpl in Hn; lia].
    + destruct (File.Write (bufio.wr b) (bufio.buf b)) as [[n e] f].
      destruct e as [e|].
      * inversion H; subst. split; [reflexivity | discriminate].
      * destruct (n <? bufio.Buffered b); inversion H; subst; simpl.
        -- split; [reflexivity | discriminate].
        -- split; reflexivity.
Qed.

Lemma bufio_copied_range (b : bufio.Writer) (p : list byte) :
  0 <= bufio.copied b p <= len p.
Proof. unfold bufio.copied. pose proof (len_nonneg p). lia. Qed.

(** The count returned by the loop and the bytes still to be copied add up to
    the length of the slice. *)
Lemma bufio_Write_loop_count (fuel : nat) :
  forall b p nn b' p' nn',
    bufio.Write_loop fuel b p nn = (b', p', nn') ->
    nn' + len p' = nn + len p.
Proof.
  induction fuel as [|fuel IH]; intros b p nn b' p' nn' H; simpl in H.
  - inversion H; subst. reflexivity.
  - destruct ((len p >? bufio.Available b) && noError (bufio.err b)).
    + destruct (bufio.Buffered b =? 0).
      * destruct (File.Write (bufio.wr b) p) as [[n e] f] eqn:Hw.
        apply File_Write_count in Hw. destruct Hw as [Hn _].
        apply IH in H. rewrite len_skipn in H by exact Hn. lia.
      * pose proof (bufio_copied_range b p) as Hn.
        destruct (bufio.Flush _) as [o b2].
        apply IH in H. rewrite len_skipn in H by exact Hn. lia.
    + inversion H; subst. reflexivity.
Qed.

(** A write that reports no error has taken the whole slice. *)
Lemma bufio_Write_ok (b b' : bufio.Writer) (p : list byte) (n : Z) :
  bufio.Write b p = ((n, None), b') -> n = len p.
Proof.
  unfold bufio.Write. intros H.
  destruct (bufio.Write_loop 2 b p 0) as [[b1 p1] nn] eqn:Hl.
  apply bufio_Write_loop_count in Hl.
  destruct (bufio.err b1); inversion H; subst. lia.
Qed.

(** Once the condition of the loop is false, the loop is over. *)
Lemma bufio_Write_loop_exit (fuel : nat) (b : bufio.Writer) (p : list byte) (nn : Z) :
  (len p >? bufio.Available b) && noError (bufio.err b) = false ->
  bufio.Write_loop fuel b p nn = (b, p, nn).
Proof. intros H. destruct fuel; simpl; [|rewrite H]; reflexivity. Qed.

Lemma bufio_Write_loop_step (fuel : nat) (b : bufio.Writer) (p : list byte) (nn : Z) :
  bufio.Write_loop (S fuel) b p nn =
  if (len p >? bufio.Available b) && noError (bufio.err b) then
    if bufio.Buffered b =? 0 then
      let '((n, e), f) := File.Write (bufio.wr b) p in
      bufio.Write_loop fuel (bufio.mkWriter f (bufio.buf b) e)
                       (skipn (Z.to_nat n) p) (nn + n)
    else
      let n := bufio.copied b p in
      let b1 := bufio.mkWriter (bufio.wr b)
                               (bufio.buf b ++ firstn (Z.to_nat n) p) (bufio.err b) in
      let '(_, b2) := bufio.Flush b1 in
      bufio.Write_loop fuel b2 (skipn (Z.to_nat n) p) (nn + n)
  else (b, p, nn).
Proof. reflexivity. Qed.

(** With an empty buffer one turn of the loop is enough. *)
Lemma bufio_Write_loop_direct (k : nat) (b : bufio.Writer) (p : list byte) (nn : Z) :
  bufio.Buffered b = 0 ->
  bufio.Write_loop (S k) b p nn = bufio.Write_loop 1 b p nn.
Proof.
  intros Hb. simpl.
  destruct ((len p >? bufio.Available b) && noError (bufio.err b)); [|reflexivity].
  rewrite Hb. simpl.
  destruct (File.Write (bufio.wr b) p) as [[n e] f] eqn:Hw.
  apply File_Write_count in Hw. destruct Hw as [Hn He].
  apply bufio_Write_loop_exit.
  destruct e as [e|]; cbn [bufio.err noError].
  - apply andb_false_r.
  - apply andb_false_intro1.
    rewrite (He eq_refl), len_skipn by (pose proof (len_nonneg p); lia).
    rewrite Z.gtb_ltb. apply Z.ltb_ge.
    unfold bufio.Available, bufio.Buffered, bufio.defaultBufSize in *.
    cbn [bufio.buf]. lia.
Qed.

(** Two turns of the loop are enough: the fuel of [bufio.Write] never runs
    out. *)
Lemma bufio_Write_loop_fuel (fuel : nat) (b : bufio.Writer) (p : list byte) (nn : Z) :
  (2 <= fuel)%nat ->
  bufio.Write_loop fuel b p nn = bufio.Write_loop 2 b p nn.
Proof.
  intros Hf. destruct fuel as [|[|k]]; [lia | lia | clear Hf].
  rewrite (bufio_Write_loop_step (S k)), (bufio_Write_loop_step 1).
  destruct ((len p >? bufio.Available b) && noError (bufio.err b)); [|reflexivity].
  destruct (bufio.Buffered b =? 0) eqn:Hb.
  - apply Z.eqb_eq in Hb.
    destruct (File.Write (bufio.wr b) p) as [[n e] f].
    apply (bufio_Write_loop_direct k). exact Hb.
  - cbv zeta.
    destruct (bufio.Flush _) as [o b2] eqn:Hfl.
    apply bufio_Flush_result in Hfl. destruct Hfl as [He Hbuf].
    destruct o as [e|].
    + rewrite !bufio_Write_loop_exit; [reflexivity | |];
        rewrite He; apply andb_false_r.
    + apply (bufio_Write_loop_direct k).
      unfold bufio.Buffered. rewrite (Hbuf eq_refl). reflexivity.
Qed.

(** ** The store *)

(** The two failures of [store.Append] leave the method before [size] is
    assigned. *)
Lemma store_Append_cases (s s' : store.store) (data : list byte) (r : outcome (Z * Z)) :
  store.Append s data = (r, s') ->
  (exists e, r = Err e /\ store.size s' = store.size s) \/
  (r = Ok (u64 (len data + lenWidth), store.size s) /\
   store.size s' = u64 (store.size s + u64 (len data + lenWidth))).
Proof.
  unfold store.Append. intros H.
  destruct (binary_Write (store.buf s) (u64 (len data))) as [e b1].
  destruct e as [e|].
  - inversion H; subst. left. exists e. split; reflexivity.
  - destruct (bufio.Write b1 data) as [[n e] b2] eqn:Hw.
    destruct e as [e|].
    + inversion H; subst. left. exists e. split; reflexivity.
    + apply bufio_Write_ok in Hw. subst n.
      inversion H; subst. right. cbn [store.size].
      rewrite u64_i64. split; reflexivity.
Qed.

(** C10: whenever [store.Append] returns an error, the size counter of the
    store is what it was before the call. *)
Theorem store_Append_error_keeps_size
  (s s' : store.store) (data : list byte) (e : error) :
  store.Append s data = (Err e, s') ->
  store.size s' = store.size s.
Proof.
  intros H. apply store_Append_cases in H.
  destruct H as [[e' [_ Hsize]] | [Hr _]]; [exact Hsize | discriminate].
Qed.

(** A payload of 5000 bytes on a device with room for 1000: the flush of the
    full buffer fails, and the size is still 0. *)
Lemma store_Append_error_keeps_size_witness :
  fst (store.Append smallStore large) = Err ENOSPC /\
  store.size (snd (store.Append smallStore large)) = store.size smallStore.
Proof.
  split; [vm_compute; reflexivity |].
  apply (store_Append_error_keeps_size smallStore _ large ENOSPC).
  vm_compute. reflexivity.
Defined.

(** C8: a successful [store.Append] returns the eight bytes of the length
    prefix plus the length of the payload, and the size of the store before
    the call; the size afterwards is the size before plus the bytes written.
    The sums are those of [uint64], and they are the sums of the integers as
    long as the size stays below 2^64. *)
Theorem store_Append_success
  (s s' : store.store) (data : list byte) (bytesWritten pos : Z) :
  store.Append s data = (Ok (bytesWritten, pos), s') ->
  bytesWritten = u64 (len data + lenWidth) /\
  pos = store.size s /\
  store.size s' = u64 (store.size s + bytesWritten) /\
  (0 <= store.size s -> store.size s + (len data + lenWidth) < 2 ^ 64 ->
   bytesWritten = len data + lenWidth /\
   store.size s' = store.size s + bytesWritten).
Proof.
  intros H. apply store_Append_cases in H.
  destruct H as [[e [Hr _]] | [Hr Hsize]]; [discriminate|].
  injection Hr as Hn Hpos. subst bytesWritten pos.
  pose proof (len_nonneg data) as Hlen.
  split; [reflexivity|]. split; [reflexivity|]. split; [exact Hsize|].
  intros Hs Hfit. rewrite Hsize.
  assert (Hw : u64 (len data + lenWidth) = len data + lenWidth)
    by (apply u64_small; unfold lenWidth in *; lia).
  rewrite Hw. split; [reflexivity|].
  apply u64_small. unfold lenWidth in *. lia.
Qed.

(** The first append of ["hello world"] to an empty store. *)
Lemma store_Append_success_witness :
  store.Append testStore hello =
    (Ok (19, 0), snd (store.Append testStore hello)) /\
  19 = u64 (len hello + lenWidth) /\
  0 = store.size testStore /\
  store.size (snd (store.Append testStore hello)) = u64 (store.size testStore + 19) /\
  (0 <= store.size testStore ->
   store.size testStore + (len hello + lenWidth) < 2 ^ 64 ->
   19 = len hello + lenWidth /\
   store.size (snd (store.Append testStore hello)) = store.size testStore + 19).
Proof.
  split; [vm_compute; reflexivity |].
  apply (store_Append_success testStore _ hello 19 0).
  vm_compute. reflexivity.
Defined.

(** ** Slices *)

Lemma slice_Some (m : list byte) (lo hi : Z) :
  0 <= lo -> lo <= hi -> hi <= len m ->
  slice m lo hi = Some (firstn (Z.to_nat (hi - lo)) (skipn (Z.to_nat lo) m)).
Proof.
  intros H0 H1 H2. unfold slice.
  replace (0 <=? lo) with true by (symmetry; apply Z.leb_le; exact H0).
  replace (lo <=? hi) with true by (symmetry; apply Z.leb_le; exact H1).
  replace (hi <=? len m) with true by (symmetry; apply Z.leb_le; exact H2).
  reflexivity.
Qed.

Lemma slice_None_gt (m : list byte) (lo hi : Z) :
  hi < lo -> slice m lo hi = None.
Proof.
  intros H. unfold slice.
  replace (lo <=? hi) with false by (symmetry; apply Z.leb_gt; exact H).
  rewrite andb_false_r. reflexivity.
Qed.

(** Writing [bs] over the middle part of [a ++ b ++ c]. *)
Lemma put_app (a b c bs : list byte) :
  len b = len bs ->
  put (a ++ b ++ c) (len a) (len a + len bs) bs = Some (a ++ bs ++ c).
Proof.
  intros Hb. unfold put.
  pose proof (len_nonneg a) as Ha. pose proof (len_nonneg bs) as Hbs.
  pose proof (len_nonneg c) as Hc.
  rewrite slice_Some by (rewrite ?len_app; lia).
  replace (len a + len bs - len a) with (len b) by lia.
  assert (Hsk : skipn (Z.to_nat (len a)) (a ++ b ++ c) = b ++ c).
  { unfold len. rewrite Nat2Z.id. rewrite skipn_app, skipn_all, Nat.sub_diag.
    reflexivity. }
  rewrite Hsk.
  assert (Hfb : firstn (Z.to_nat (len b)) (b ++ c) = b).
  { unfold len. rewrite Nat2Z.id. rewrite firstn_app, firstn_all, Nat.sub_diag.
    simpl. apply app_nil_r. }
  rewrite Hfb.
  replace (len bs <=? len b) with true by (symmetry; apply Z.leb_le; lia).
  f_equal.
  assert (Hfa : firstn (Z.to_nat (len a)) (a ++ b ++ c) = a).
  { unfold len. rewrite Nat2Z.id. rewrite firstn_app, firstn_all, Nat.sub_diag.
    simpl. apply app_nil_r. }
  rewrite Hfa. f_equal. f_equal.
  replace (Z.to_nat (len a + len bs)) with (length a + length b)%nat
    by (unfold len in *; lia).
  rewrite skipn_app.
  rewrite (skipn_all2 a) by lia.
  replace (length a + length b - length a)%nat with (length b) by lia.
  rewrite skipn_app, skipn_all, Nat.sub_diag. reflexivity.
Qed.

Lemma slice_prefix (a b : list byte) : slice (a ++ b) 0 (len a) = Some a.
Proof.
  pose proof (len_nonneg a) as Ha. pose proof (len_nonneg b) as Hb.
  rewrite slice_Some by (rewrite ?len_app; lia).
  rewrite Z.sub_0_r. cbn [Z.to_nat skipn].
  unfold len. rewrite Nat2Z.id, firstn_app, firstn_all, Nat.sub_diag.
  cbn [firstn]. rewrite app_nil_r. reflexivity.
Qed.

Lemma slice_middle (a b c : list byte) :
  slice (a ++ b ++ c) (len a) (len a + len b) = Some b.
Proof.
  pose proof (len_nonneg a) as Ha. pose proof (len_nonneg b) as Hb.
  pose proof (len_nonneg c) as Hc.
  rewrite slice_Some by (rewrite ?len_app; lia).
  replace (len a + len b - len a) with (len b) by lia.
  unfold len. rewrite !Nat2Z.id.
  rewrite skipn_app, skipn_all, Nat.sub_diag. cbn [skipn app].
  rewrite firstn_app, firstn_all, Nat.sub_diag.
  cbn [firstn]. rewrite app_nil_r. reflexivity.
Qed.

(** A slice cut at three places. *)
Lemma split3 (m : list byte) (i j k : Z) :
  0 <= i -> i <= j -> j <= k -> k <= len m ->
  exists a x y c,
    m = a ++ x ++ y ++ c /\
    len a = i /\ len x = j - i /\ len y = k - j /\
    a = firstn (Z.to_nat i) m /\ c = skipn (Z.to_nat k) m.
Proof.
  intros Hi Hj Hk Hm.
  exists (firstn (Z.to_nat i) m),
         (firstn (Z.to_nat (j - i)) (skipn (Z.to_nat i) m)),
         (firstn (Z.to_nat (k - j)) (skipn (Z.to_nat j) m)),
         (skipn (Z.to_nat k) m).
  assert (Hsk : forall p q, 0 <= p -> 0 <= q ->
            skipn (Z.to_nat q) (skipn (Z.to_nat p) m) = skipn (Z.to_nat (p + q)) m).
  { intros p q Hp Hq. rewrite skipn_skipn. f_equal. lia. }
  repeat split.
  - rewrite <- (firstn_skipn (Z.to_nat i) m) at 1. f_equal.
    rewrite <- (firstn_skipn (Z.to_nat (j - i)) (skipn (Z.to_nat i) m)) at 1.
    f_equal. rewrite Hsk by lia. replace (i + (j - i)) with j by lia.
    rewrite <- (firstn_skipn (Z.to_nat (k - j)) (skipn (Z.to_nat j) m)) at 1.
    f_equal. rewrite Hsk by lia. f_equal. f_equal. lia.
  - apply len_firstn. lia.
  - rewrite len_firstn; [reflexivity|]. rewrite len_skipn; lia.
  - rewrite len_firstn; [reflexivity|]. rewrite len_skipn; lia.
Qed.

Lemma len_PutUint32 (v : Z) : len (enc.PutUint32 v) = offWidth.
Proof. reflexivity. Qed.

Lemma len_PutUint64 (v : Z) : len (enc.PutUint64 v) = posWidth.
Proof. reflexivity. Qed.

(** ** The index *)

Lemma index_Write_full (idx : index.index) (offset storePosition : Z) :
  0 <= index.size idx -> index.size idx + entryWidth < 2 ^ 64 ->
  len (index.mmap idx) < index.size idx + entryWidth ->
  index.Write idx offset storePosition = (Err EOF, idx).
Proof.
  intros H0 H1 Hfull. unfold index.Write.
  assert (Hw : entryWidth = 12) by reflexivity.
  rewrite (u64_small (index.size idx)) by lia.
  rewrite (u64_small (index.size idx + entryWidth)) by lia.
  replace (len (index.mmap idx) <? index.size idx + entryWidth) with true
    by (symmetry; apply Z.ltb_lt; exact Hfull).
  reflexivity.
Qed.

Lemma index_Write_room (idx : index.index) (offset storePosition : Z) :
  0 <= index.size idx -> index.size idx + entryWidth < 2 ^ 64 ->
  index.size idx + entryWidth <= len (index.mmap idx) ->
  index.Write idx offset storePosition = (Ok tt, written idx offset storePosition).
Proof.
  intros H0 H1 Hroom. unfold index.Write, written.
  assert (Hw : entryWidth = 12) by reflexivity.
  assert (Ho : offWidth = 4) by reflexivity.
  rewrite (u64_small entryWidth) by lia.
  rewrite (u64_small (index.size idx)) by lia.
  rewrite (u64_small (index.size idx + entryWidth)) by lia.
  rewrite (u64_small (index.size idx + offWidth)) by lia.
  replace (len (index.mmap idx) <? index.size idx + entryWidth) with false
    by (symmetry; apply Z.ltb_ge; exact Hroom).
  destruct (split3 (index.mmap idx) (index.size idx) (index.size idx + offWidth)
                   (index.size idx + entryWidth))
    as (a & x & y & c & Hm & Ha & Hx & Hy & Hfa & Hc); try lia.
  rewrite <- Hfa, <- Hc. rewrite Hm. rewrite <- Ha.
  replace (len a + offWidth) with (len a + len (enc.PutUint32 offset))
    by (rewrite len_PutUint32; reflexivity).
  rewrite (put_app a x (y ++ c)) by (rewrite len_PutUint32; lia).
  replace (len a + len (enc.PutUint32 offset))
    with (len (a ++ enc.PutUint32 offset)) by (apply len_app).
  replace (len a + entryWidth)
    with (len (a ++ enc.PutUint32 offset) + len (enc.PutUint64 storePosition))
    by (rewrite len_app, len_PutUint32, len_PutUint64;
        unfold entryWidth; lia).
  rewrite (app_assoc a (enc.PutUint32 offset) (y ++ c)).
  rewrite (put_app (a ++ enc.PutUint32 offset) y c)
    by (rewrite len_PutUint64; unfold posWidth; lia).
  rewrite <- app_assoc. reflexivity.
Qed.

(** C7: [index.Write] fails with [EOF] exactly when [size + entryWidth]
    exceeds the length of the mapped region, and then changes nothing;
    otherwise it puts the four big-endian bytes of the offset and the eight
    big-endian bytes of the position at [size, size + entryWidth) of the
    region and advances [size] by [entryWidth].  The size of an index is a
    [uint64] that stays below 2^63 ([index_size_bound_new],
    [index_size_bound_Write]). *)
Theorem index_Write_spec (idx : index.index) (offset storePosition : Z) :
  0 <= index.size idx -> index.size idx + entryWidth < 2 ^ 64 ->
  (fst (index.Write idx offset storePosition) = Err EOF
   <-> len (index.mmap idx) < index.size idx + entryWidth) /\
  (len (index.mmap idx) < index.size idx + entryWidth ->
   index.Write idx offset storePosition = (Err EOF, idx)) /\
  (index.size idx + entryWidth <= len (index.mmap idx) ->
   index.Write idx offset storePosition = (Ok tt, written idx offset storePosition)).
Proof.
  intros H0 H1. split; [|split].
  - split.
    + intros He.
      destruct (Z_lt_le_dec (len (index.mmap idx)) (index.size idx + entryWidth))
        as [Hlt | Hle]; [exact Hlt|].
      rewrite (index_Write_room idx offset storePosition H0 H1 Hle) in He.
      discriminate.
    + intros Hlt. rewrite (index_Write_full idx offset storePosition H0 H1 Hlt).
      reflexivity.
  - apply index_Write_full; assumption.
  - apply index_Write_room; assumption.
Qed.

(** The first entry of the index of the scenario is written, and the fourth
    one is refused. *)
Lemma index_Write_spec_witness :
  index.Write testIndex 0 0 = (Ok tt, written testIndex 0 0) /\
  index.Write fullIndex 3 81 = (Err EOF, fullIndex).
Proof.
  split.
  - apply (index_Write_spec testIndex 0 0); vm_compute; try reflexivity; discriminate.
  - apply (index_Write_spec fullIndex 3 81); vm_compute; try reflexivity; discriminate.
Defined.

Lemma len_zeros (n : Z) : len (zeros n) = Z.max 0 n.
Proof. unfold len, zeros. rewrite repeat_length. lia. Qed.

Lemma len_resize (n : Z) (l : list byte) : 0 <= n -> len (resize n l) = n.
Proof.
  intros Hn. unfold resize. rewrite len_app, len_zeros.
  unfold len. rewrite length_firstn. lia.
Qed.

Lemma index_size_bound_new (f : osfile) (c : Config) (idx : index.index) :
  len (fdata f) < 2 ^ 63 ->
  index.newIndex f c = Ok idx -> index_ok idx.
Proof.
  unfold index.newIndex, index_ok. intros Hf H.
  pose proof (len_nonneg (fdata f)) as H0.
  destruct (i64 (MaxIndexBytes (Segment c)) <? 0) eqn:Hneg; [discriminate|].
  destruct (i64 (MaxIndexBytes (Segment c)) =? 0); [discriminate|].
  apply Z.ltb_ge in Hneg.
  injection H as H. subst idx. cbn [index.size index.mmap].
  rewrite u64_small by lia. rewrite len_resize by exact Hneg.
  split; [lia|].
  unfold i64.
  pose proof (Z.mod_pos_bound (MaxIndexBytes (Segment c) + 2 ^ 63) (2 ^ 64)).
  lia.
Qed.

Lemma len_written (idx : index.index) (offset storePosition : Z) :
  0 <= index.size idx ->
  index.size idx + entryWidth <= len (index.mmap idx) ->
  len (index.mmap (written idx offset storePosition)) = len (index.mmap idx).
Proof.
  intros H0 Hroom. unfold written. cbn [index.mmap].
  assert (Hw : entryWidth = 12) by reflexivity.
  rewrite !len_app, len_PutUint32, len_PutUint64.
  rewrite len_firstn by lia. rewrite len_skipn by lia.
  unfold offWidth, posWidth. lia.
Qed.

Lemma index_size_bound_Write
  (idx idx' : index.index) (offset storePosition : Z) (r : outcome unit) :
  index_ok idx ->
  index.Write idx offset storePosition = (r, idx') -> index_ok idx'.
Proof.
  intros [Hs Hm] H.
  assert (Hw : entryWidth = 12) by reflexivity.
  destruct (Z_lt_le_dec (len (index.mmap idx)) (index.size idx + entryWidth))
    as [Hlt | Hle].
  - rewrite index_Write_full in H by lia. injection H as _ H. subst idx'.
    split; assumption.
  - rewrite index_Write_room in H by lia. injection H as _ H. subst idx'.
    split.
    + unfold written. cbn [index.size]. lia.
    + rewrite len_written by lia. exact Hm.
Qed.

(** The slice expression [idx.mmap[entryStart:offWidth]] of [index.Read] has
    its bounds in order only for the first entry: the read of any later
    entry that is there panics. *)
Lemma index_Read_beyond_first (idx : index.index) (i : Z) :
  1 <= i < 2 ^ 32 ->
  (i + 1) * entryWidth <= index.size idx ->
  index.Read idx i = Panic.
Proof.
  intros Hi Hsz. unfold index.Read.
  assert (Hw : entryWidth = 12) by reflexivity.
  assert (Ho : offWidth = 4) by reflexivity.
  replace (index.size idx =? 0) with false by (symmetry; apply Z.eqb_neq; lia).
  replace (i =? -1) with false by (symmetry; apply Z.eqb_neq; lia).
  rewrite (u32_small i) by lia.
  rewrite (u64_small (i * entryWidth)) by lia.
  rewrite (u64_small (i * entryWidth + entryWidth)) by lia.
  replace (i * entryWidth + entryWidth >? index.size idx) with false
    by (symmetry; rewrite Z.gtb_ltb; apply Z.ltb_ge; lia).
  rewrite slice_None_gt by lia. reflexivity.
Qed.

(** ** Bytes read back *)

Lemma Z_of_byte_range (b : byte) : 0 <= Z_of_byte b < 256.
Proof.
  unfold Z_of_byte. pose proof (Byte.to_N_bounded b). lia.
Qed.

Lemma lor_le_add (a b : Z) : 0 <= a -> 0 <= b -> 0 <= Z.lor a b <= a + b.
Proof.
  intros Ha Hb. split.
  - apply Z.lor_nonneg. split; assumption.
  - pose proof (Z.add_lor_land a b) as H.
    assert (0 <= Z.land a b) by (apply Z.land_nonneg; left; exact Ha).
    lia.
Qed.

Lemma be32_range (z0 z1 z2 z3 : Z) :
  0 <= z0 < 256 -> 0 <= z1 < 256 -> 0 <= z2 < 256 -> 0 <= z3 < 256 ->
  0 <= Z.lor (Z.lor (Z.lor z3 (Z.shiftl z2 8)) (Z.shiftl z1 16)) (Z.shiftl z0 24)
    < 2 ^ 32.
Proof.
  intros H0 H1 H2 H3.
  rewrite !Z.shiftl_mul_pow2 by lia.
  pose proof (lor_le_add z3 (z2 * 2 ^ 8)).
  pose proof (lor_le_add (Z.lor z3 (z2 * 2 ^ 8)) (z1 * 2 ^ 16)).
  pose proof (lor_le_add (Z.lor (Z.lor z3 (z2 * 2 ^ 8)) (z1 * 2 ^ 16))
                         (z0 * 2 ^ 24)).
  lia.
Qed.

Lemma Uint32_range (b : list byte) (v : Z) :
  enc.Uint32 b = Some v -> 0 <= v < 2 ^ 32.
Proof.
  destruct b as [|b0 [|b1 [|b2 [|b3 rest]]]]; try discriminate.
  intros H.
  assert (Hv : v = Z.lor (Z.lor (Z.lor (Z_of_byte b3) (Z.shiftl (Z_of_byte b2) 8))
                                (Z.shiftl (Z_of_byte b1) 16))
                         (Z.shiftl (Z_of_byte b0) 24))
    by (unfold enc.Uint32 in H; congruence).
  rewrite Hv. apply be32_range; apply Z_of_byte_range.
Qed.

Lemma Z_of_byte_of_Z (z : Z) : Z_of_byte (byte_of_Z z) = z mod 256.
Proof.
  unfold Z_of_byte, byte_of_Z.
  assert (Hr : 0 <= z mod 256 < 256) by (apply Z.mod_pos_bound; lia).
  destruct (Byte.of_N (Z.to_N (z mod 256))) as [b|] eqn:Hb.
  - apply Byte.to_of_N in Hb. rewrite Hb. lia.
  - apply Byte.of_N_None_iff in Hb. lia.
Qed.

Lemma testbit_byte (z s j : Z) :
  0 <= s -> 
  Z.testbit (Z.shiftl (Z_of_byte (byte_of_Z (Z.shiftr z s))) s) j
  = (s <=? j) && (j <? s + 8) && Z.testbit z j.
Proof.
  intros Hs. rewrite Z_of_byte_of_Z.
  destruct (Z.leb_spec s j) as [Hle | Hlt].
  - rewrite Z.shiftl_spec by lia.
    change 256 with (2 ^ 8).
    destruct (Z.ltb_spec j (s + 8)) as [Hlo | Hhi].
    + rewrite Z.mod_pow2_bits_low by lia.
      rewrite Z.shiftr_spec by lia. simpl. f_equal. lia.
    + rewrite Z.mod_pow2_bits_high by lia. reflexivity.
  - destruct (Z.ltb_spec j 0).
    + rewrite Z.testbit_neg_r by lia. reflexivity.
    + rewrite Z.shiftl_spec_low by lia. reflexivity.
Qed.

Lemma Uint32_PutUint32 (v : Z) (rest : list byte) :
  enc.Uint32 (enc.PutUint32 v ++ rest) = Some (u32 v).
Proof.
  unfold enc.PutUint32, enc.Uint32. cbn [app]. f_equal.
  apply Z.bits_inj'. intros j Hj.
  rewrite !Z.lor_spec.
  rewrite <- (Z.shiftl_0_r (Z_of_byte (byte_of_Z v))).
  rewrite <- (Z.shiftr_0_r v) at 1.
  rewrite !testbit_byte by lia.
  unfold u32.
  destruct (Z.ltb_spec j 32) as [Hlo | Hhi].
  - rewrite Z.mod_pow2_bits_low by lia.
    destruct (Z.testbit v j); [|rewrite !andb_false_r; reflexivity].
    rewrite !andb_true_r.
    destruct (Z.ltb_spec j 8); destruct (Z.ltb_spec j 16); destruct (Z.ltb_spec j 24); try lia;
    repeat match goal with |- context [?a <=? ?b] => destruct (Z.leb_spec a b); try lia end;
    repeat match goal with |- context [?a <? ?b] => destruct (Z.ltb_spec a b); try lia end; reflexivity.
  - rewrite Z.mod_pow2_bits_high by lia.
    repeat match goal with |- context [?a <? ?b] => destruct (Z.ltb_spec a b); try lia end;
    rewrite ?andb_false_r; reflexivity.
Qed.

Lemma Uint64_PutUint64 (v : Z) (rest : list byte) :
  enc.Uint64 (enc.PutUint64 v ++ rest) = Some (u64 v).
Proof.
  unfold enc.PutUint64, enc.Uint64. cbn [app]. f_equal.
  apply Z.bits_inj'. intros j Hj.
  rewrite !Z.lor_spec.
  rewrite <- (Z.shiftl_0_r (Z_of_byte (byte_of_Z v))).
  rewrite <- (Z.shiftr_0_r v) at 1.
  rewrite !testbit_byte by lia.
  unfold u64.
  destruct (Z.ltb_spec j 64) as [Hlo | Hhi].
  - rewrite Z.mod_pow2_bits_low by lia.
    destruct (Z.testbit v j); [|rewrite !andb_false_r; reflexivity].
    rewrite !andb_true_r. bit_ranges.
  - rewrite Z.mod_pow2_bits_high by lia. bit_ranges.
Qed.

Lemma index_Read_offset_range (idx : index.index) (i off pos : Z) :
  index.Read idx i = Ok (off, pos) -> 0 <= off < 2 ^ 32.
Proof.
  unfold index.Read. intros H.
  destruct (index.size idx =? 0); [discriminate|].
  destruct (_ >? index.size idx); [discriminate|].
  destruct (slice (index.mmap idx) _ offWidth) as [b|]; [|discriminate].
  destruct (enc.Uint32 b) as [v|] eqn:Hv; [|discriminate].
  destruct (slice (index.mmap idx) _ _) as [b'|]; [|discriminate].
  destruct (enc.Uint64 b') as [w|]; [|discriminate].
  injection H as H _. subst v. apply (Uint32_range b). exact Hv.
Qed.

Lemma index_Read_empty (idx : index.index) (i : Z) :
  index.size idx = 0 -> index.Read idx i = Err EOF.
Proof. intros H. unfold index.Read. rewrite H. reflexivity. Qed.

(** The first entry of an index is read back as it was encoded, by its
    number and, when it is the only one, as the last entry. *)
Lemma index_Read_first (idx : index.index) (offset storePosition : Z) (rest : list byte) :
  index.mmap idx = enc.PutUint32 offset ++ enc.PutUint64 storePosition ++ rest ->
  entryWidth <= index.size idx ->
  index.Read idx 0 = Ok (u32 offset, u64 storePosition) /\
  (index.size idx = entryWidth ->
   index.Read idx (-1) = Ok (u32 offset, u64 storePosition)).
Proof.
  intros Hm Hsz.
  assert (Hw : entryWidth = 12) by reflexivity.
  assert (Hread : forall used, used = 0 ->
    (if u64 (u64 (used * entryWidth) + entryWidth) >? index.size idx
     then Err EOF
     else
       match slice (index.mmap idx) (u64 (used * entryWidth)) offWidth with
       | None => Panic
       | Some b =>
           match enc.Uint32 b with
           | None => Panic
           | Some offsetUsed =>
               match slice (index.mmap idx)
                           (u64 (u64 (used * entryWidth) + offWidth))
                           (u64 (u64 (used * entryWidth) + entryWidth)) with
               | None => Panic
               | Some b =>
                   match enc.Uint64 b with
                   | None => Panic
                   | Some pos => Ok (offsetUsed, pos)
                   end
               end
           end
       end) = Ok (u32 offset, u64 storePosition)).
  { intros used ->.
    replace (u64 (u64 (0 * entryWidth) + entryWidth)) with 12 by reflexivity.
    replace (12 >? index.size idx) with false
      by (symmetry; rewrite Z.gtb_ltb; apply Z.ltb_ge; lia).
    replace (u64 (0 * entryWidth)) with 0 by reflexivity.
    replace offWidth with (len (enc.PutUint32 offset)) at 1 by reflexivity.
    rewrite Hm, slice_prefix.
    rewrite <- (app_nil_r (enc.PutUint32 offset)), Uint32_PutUint32.
    rewrite app_nil_r.
    replace (u64 (0 + offWidth)) with (len (enc.PutUint32 offset)) by reflexivity.
    replace (u64 (0 + entryWidth))
      with (len (enc.PutUint32 offset) + len (enc.PutUint64 storePosition))
      by reflexivity.
    rewrite slice_middle.
    rewrite <- (app_nil_r (enc.PutUint64 storePosition)), Uint64_PutUint64.
    reflexivity. }
  unfold index.Read.
  replace (index.size idx =? 0) with false by (symmetry; apply Z.eqb_neq; lia).
  split.
  - apply Hread. reflexivity.
  - intros Hone. replace (-1 =? -1) with true by reflexivity.
    apply Hread. rewrite Hone. reflexivity.
Qed.

Lemma index_Read_first_written (idx : index.index) (offset storePosition : Z) :
  index.size idx = 0 ->
  index.Read (written idx offset storePosition) 0
    = Ok (u32 offset, u64 storePosition) /\
  index.Read (written idx offset storePosition) (-1)
    = Ok (u32 offset, u64 storePosition).
Proof.
  intros Hs.
  destruct (index_Read_first (written idx offset storePosition) offset storePosition
              (skipn (Z.to_nat (index.size idx + entryWidth)) (index.mmap idx)))
    as [H0 H1].
  - unfold written. cbn [index.mmap]. rewrite Hs. reflexivity.
  - unfold written. cbn [index.size]. lia.
  - split; [exact H0 | apply H1]. unfold written. cbn [index.size]. lia.
Qed.

(** ** The segment *)

(** What [newSegment] leaves in [nextOffset]: the base offset, or one past
    the offset of the entry it has read. *)
Lemma newSegment_offsets (d : dir) (B : Z) (c : Config) (s : segment.segment) :
  segment.newSegment d B c = Ok s ->
  segment.baseOffset s = B /\
  (segment.nextOffset s = B \/
   exists off, 0 <= off < 2 ^ 32 /\ segment.nextOffset s = u64 (B + off + 1)).
Proof.
  unfold segment.newSegment, store.newStore. intros H.
  destruct (index.newIndex (OpenFile d (IndexName B)) c) as [idx | e |];
    try discriminate.
  destruct (index.Read idx (-1)) as [[off pos] | e |] eqn:Hr; try discriminate.
  - injection H as H. subst s. cbn [segment.baseOffset segment.nextOffset].
    split; [reflexivity|]. right.
    apply index_Read_offset_range in Hr.
    exists off. split; [exact Hr|].
    rewrite (u64_small off) by lia. rewrite u64_add_l. reflexivity.
  - injection H as H. subst s. split; [reflexivity | left; reflexivity].
Qed.

Lemma newSegment_fresh (d : dir) (B : Z) (c : Config) (s : segment.segment) :
  fresh d B ->
  segment.newSegment d B c = Ok s ->
  segment.baseOffset s = B /\ segment.nextOffset s = B.
Proof.
  unfold segment.newSegment, store.newStore, index.newIndex, OpenFile.
  intros [Hst Hix] H. rewrite Hst, Hix in H. cbn [fdata fileName] in H.
  destruct (i64 (MaxIndexBytes (Segment c)) <? 0); [discriminate|].
  destruct (i64 (MaxIndexBytes (Segment c)) =? 0); [discriminate|].
  rewrite index_Read_empty in H by reflexivity.
  injection H as H. subst s. split; reflexivity.
Qed.

Section WithCodec.

Context {codec : Codec}.

(** An append either succeeds, returns [nextOffset] and advances it by one,
    or returns no offset and leaves it; [baseOffset] never changes. *)
Lemma segment_Append_cases
  (s s' : segment.segment) (r : api.record) (o : outcome Z) :
  segment.Append s r = (o, s') ->
  segment.baseOffset s' = segment.baseOffset s /\
  ((o = Ok (segment.nextOffset s) /\
    segment.nextOffset s' = u64 (segment.nextOffset s + 1)) \/
   (is_Ok o = false /\ segment.nextOffset s' = segment.nextOffset s)).
Proof.
  unfold segment.Append. intros H.
  destruct (Marshal _) as [p | e |].
  - destruct (store.Append (segment.store s) p) as [r' st].
    destruct (index.Write _ _ _) as [w idx].
    destruct w as [[] | e |]; injection H as Ho Hs; subst o s';
      cbn [segment.baseOffset segment.nextOffset];
      (split; [reflexivity|]); [left | right | right]; split; reflexivity.
  - injection H as Ho Hs; subst o s'. split; [reflexivity|].
    right. split; reflexivity.
  - injection H as Ho Hs; subst o s'. split; [reflexivity|].
    right. split; reflexivity.
Qed.

Lemma segment_Appends_cons (s : segment.segment) (r : api.record) (rs : list api.record) :
  segment.Appends s (r :: rs) =
  let '(o, s1) := segment.Append s r in
  match o with
  | Panic => ([Panic], s1)
  | _ => let '(os, s2) := segment.Appends s1 rs in (o :: os, s2)
  end.
Proof. reflexivity. Qed.



(** A run of appends advances [nextOffset] by at most one per append and
    keeps [baseOffset]. *)
Lemma segment_Appends_next (rs : list api.record) :
  forall s,
    0 <= segment.nextOffset s ->
    segment.nextOffset s + len rs < 2 ^ 64 ->
    segment.baseOffset (snd (segment.Appends s rs)) = segment.baseOffset s /\
    segment.nextOffset s <= segment.nextOffset (snd (segment.Appends s rs))
      <= segment.nextOffset s + len rs.
Proof.
  induction rs as [|r rs IH]; intros s H0 Hfit.
  - cbn [segment.Appends snd]. unfold len. simpl. split; [reflexivity | lia].
  - rewrite segment_Appends_cons.
    assert (Hlen : len (r :: rs) = len rs + 1)
      by (unfold len; cbn [length]; lia).
    pose proof (len_nonneg rs) as Hrs.
    destruct (segment.Append s r) as [o s1] eqn:Ha.
    apply segment_Append_cases in Ha. destruct Ha as [Hb Ha].
    assert (Hstep : segment.nextOffset s <= segment.nextOffset s1
                      <= segment.nextOffset s + 1).
    { destruct Ha as [[_ Hn] | [_ Hn]]; rewrite Hn.
      - rewrite u64_small by lia. lia.
      - lia. }
    destruct (segment.Appends s1 rs) as [os1 s2] eqn:Hrun.
    specialize (IH s1). rewrite Hrun in IH. cbn [snd] in IH.
    destruct o as [a | e |]; cbn [snd].
    + destruct IH as [IHb IHn]; [lia | lia |]. split; [congruence | lia].
    + destruct IH as [IHb IHn]; [lia | lia |]. split; [congruence | lia].
    + split; [exact Hb | lia].
Qed.

(** C9, amended: for a segment that [newSegment] returns and after every
    run of appends on it, [nextOffset >= baseOffset] holds as long as the
    offsets of [uint64] cannot wrap around: with base offset [B] and [k]
    appends, [B + 2^32 + k < 2^64], or [B + k < 2^64] when the segment is
    created over no files.  The run of no append is the creation of the
    segment, in the case of the empty index and in the case of the index
    that is resumed. *)
Theorem segment_nextOffset_ge_baseOffset
  (d : dir) (B : Z) (c : Config) (s : segment.segment) (rs : list api.record) :
  0 <= B ->
  segment.newSegment d B c = Ok s ->
  B + 2 ^ 32 + len rs < 2 ^ 64 \/ (fresh d B /\ B + len rs < 2 ^ 64) ->
  segment.baseOffset (snd (segment.Appends s rs)) = B /\
  segment.baseOffset (snd (segment.Appends s rs))
    <= segment.nextOffset (snd (segment.Appends s rs)).
Proof.
  intros HB Hnew Hfit.
  pose proof (len_nonneg rs) as Hrs.
  assert (Hs : segment.baseOffset s = B /\
               B <= segment.nextOffset s /\
               segment.nextOffset s + len rs < 2 ^ 64).
  { destruct Hfit as [Hfit | [Hfresh Hfit]].
    - destruct (newSegment_offsets d B c s Hnew) as [Hb [Hn | [off [Hoff Hn]]]].
      + rewrite Hn. lia.
      + rewrite Hn. rewrite u64_small by lia. lia.
    - destruct (newSegment_fresh d B c s Hfresh Hnew) as [Hb Hn].
      rewrite Hn. lia. }
  destruct Hs as [Hb [Hn Hroom]].
  destruct (segment_Appends_next rs s) as [Hb' Hn']; [lia | lia |].
  rewrite Hb', Hb. split; [reflexivity | lia].
Qed.

End WithCodec.


(** The segment of the scenario after its three appends. *)
Lemma segment_nextOffset_ge_baseOffset_witness :
  segment.baseOffset
    (snd (segment.Appends (codec := frameCodec)
            (mkSegmentOf testDir 16 testConfig) [want; want; want])) = 16 /\
  segment.baseOffset
    (snd (segment.Appends (codec := frameCodec)
            (mkSegmentOf testDir 16 testConfig) [want; want; want]))
  <= segment.nextOffset
       (snd (segment.Appends (codec := frameCodec)
               (mkSegmentOf testDir 16 testConfig) [want; want; want])).
Proof.
  apply (segment_nextOffset_ge_baseOffset (codec := frameCodec)
           testDir 16 testConfig (mkSegmentOf testDir 16 testConfig)
           [want; want; want]).
  - lia.
  - vm_compute. reflexivity.
  - left. vm_compute. reflexivity.
Defined.

(** C9 as it is written fails where [nextOffset] wraps around: a segment
    created with the base offset 2^64 - 1 has [nextOffset = 0] after its
    first append. *)
Lemma segment_nextOffset_wraps_below_baseOffset :
  exists s s',
    segment.newSegment testDir (2 ^ 64 - 1) testConfig = Ok s /\
    segment.Append (codec := frameCodec) s want = (Ok (2 ^ 64 - 1), s') /\
    segment.baseOffset s' = 2 ^ 64 - 1 /\
    segment.nextOffset s' = 0 /\
    ~ segment.nextOffset s' >= segment.baseOffset s'.
Proof.
  eexists. eexists.
  split; [vm_compute; reflexivity |].
  split; [vm_compute; reflexivity |].
  split; [reflexivity |].
  split; [reflexivity |].
  vm_compute. intros H. apply H. reflexivity.
Qed.

(** ** Where the code departs from its specification

    [index.Read] slices the offset field as [idx.mmap[entryStart:offWidth]]:
    the upper bound is the width of the field and not [entryStart + offWidth],
    so the bounds are in order for the first entry only
    ([index_Read_beyond_first]).  The lemmas below run the code of the
    scenario into it. *)

(** C3: on the index of the scenario with three entries written, the read of
    the first entry returns the fields stored at [0, 12), and the reads of
    the second and of the third entry, stored at [12, 24) and [24, 36),
    panic. *)
Theorem index_Read_second_entry_panics :
  index.size fullIndex = 3 * entryWidth /\
  slice (index.mmap fullIndex) 12 24 = Some (enc.PutUint32 1 ++ enc.PutUint64 27) /\
  index.Read fullIndex 0 = Ok (0, 0) /\
  index.Read fullIndex 1 = Panic /\
  index.Read fullIndex 2 = Panic.
Proof. vm_compute. repeat split. Qed.

(** C1: after two appends to the fresh segment of the scenario, the record
    of offset 16 is read back with its payload, and the read of the record of
    offset 17, which the second append has returned, panics. *)
Theorem segment_Read_second_record_panics :
  exists s s2,
    segment.newSegment testDir 16 testConfig = Ok s /\
    segment.Appends (codec := frameCodec) s [want; want] = ([Ok 16; Ok 17], s2) /\
    segment.nextOffset s2 = 18 /\
    fst (segment.Read (codec := frameCodec) s2 16) = Ok (api.mkRecord hello 16) /\
    fst (segment.Read (codec := frameCodec) s2 17) = Panic.
Proof.
  eexists. eexists.
  split; [vm_compute; reflexivity |].
  split; [vm_compute; reflexivity |].
  vm_compute. repeat split.
Qed.

(** C2: on the segment of base offset 16 that holds the one record of offset
    16, the read of offset 15 reaches [index.Read] as its sentinel -1 and
    returns the record of offset 16; the read of offset 16 + 2^32 is cut to
    the entry 0 by [uint32] and returns it as well. *)
Theorem segment_Read_out_of_range_succeeds :
  exists s s1,
    segment.newSegment testDir 16 testConfig = Ok s /\
    segment.Append (codec := frameCodec) s want = (Ok 16, s1) /\
    segment.baseOffset s1 = 16 /\
    segment.nextOffset s1 = 17 /\
    fst (segment.Read (codec := frameCodec) s1 15) = Ok (api.mkRecord hello 16) /\
    fst (segment.Read (codec := frameCodec) s1 (16 + 2 ^ 32))
      = Ok (api.mkRecord hello 16) /\
    fst (segment.Read (codec := frameCodec) s1 17) = Err EOF.
Proof.
  eexists. eexists.
  split; [vm_compute; reflexivity |].
  split; [vm_compute; reflexivity |].
  vm_compute. repeat split.
Qed.

(** C4: on a device with room for 1000 bytes, the append of a record of 5000
    bytes fails in the store with [ENOSPC], and [segment.Append] returns the
    offset 16 and no error, with an index entry for the position 0. *)
Theorem segment_Append_hides_store_error :
  exists s p s',
    segment.newSegment smallDir 16 testConfig = Ok s /\
    frameMarshal (api.mkRecord large 16) = Ok p /\
    fst (store.Append (segment.store s) p) = Err ENOSPC /\
    segment.Append (codec := frameCodec) s (api.mkRecord large 0) = (Ok 16, s') /\
    segment.nextOffset s' = 17 /\
    index.Read (segment.index s') 0 = Ok (0, 0).
Proof.
  eexists. eexists. eexists.
  split; [vm_compute; reflexivity |].
  split; [vm_compute; reflexivity |].
  split; [vm_compute; reflexivity |].
  split; [vm_compute; reflexivity |].
  vm_compute. repeat split.
Qed.

(** C5: the segment of the scenario is closed after two appends, with
    [nextOffset = 18]; [newSegment] over the directory it leaves panics in
    [index.Read(-1)].  After no append and after one append it resumes at 16
    and at 17. *)
Theorem newSegment_reopen_panics :
  exists s s2,
    segment.newSegment testDir 16 testConfig = Ok s /\
    segment.Appends (codec := frameCodec) s [want; want] = ([Ok 16; Ok 17], s2) /\
    segment.nextOffset s2 = 18 /\
    fst (segment.Close s2 testDir) = None /\
    segment.newSegment (snd (segment.Close s2 testDir)) 16 testConfig = Panic.
Proof.
  eexists. eexists.
  split; [vm_compute; reflexivity |].
  split; [vm_compute; reflexivity |].
  vm_compute. repeat split.
Qed.

Example newSegment_reopen_empty :
  exists s s',
    segment.newSegment testDir 16 testConfig = Ok s /\
    fst (segment.Close s testDir) = None /\
    segment.newSegment (snd (segment.Close s testDir)) 16 testConfig = Ok s' /\
    segment.nextOffset s' = 16.
Proof.
  eexists. eexists.
  split; [vm_compute; reflexivity |].
  split; [vm_compute; reflexivity |].
  split; [vm_compute; reflexivity |].
  reflexivity.
Qed.

Example newSegment_reopen_one :
  exists s s1 s',
    segment.newSegment testDir 16 testConfig = Ok s /\
    segment.Append (codec := frameCodec) s want = (Ok 16, s1) /\
    fst (segment.Close s1 testDir) = None /\
    segment.newSegment (snd (segment.Close s1 testDir)) 16 testConfig = Ok s' /\
    segment.nextOffset s' = 17 /\
    fst (segment.Read (codec := frameCodec) s' 16) = Ok (api.mkRecord hello 16).
Proof.
  eexists. eexists. eexists.
  split; [vm_compute; reflexivity |].
  split; [vm_compute; reflexivity |].
  split; [vm_compute; reflexivity |].
  split; [vm_compute; reflexivity |].
  vm_compute. repeat split.
Qed.

(** * More of the code

    The store as a file of frames, the index as an append-only array, and
    the life of a segment: what the other methods do and how they compose. *)

(** ** The buffered writer, continued *)

Lemma File_Write_fileName (f : osfile) (p : list byte) :
  fileName (snd (File.Write f p)) = fileName f.
Proof. unfold File.Write. destruct (len p <=? Z.max 0 (room f)); reflexivity. Qed.

Lemma File_Write_ok (f f' : osfile) (p : list byte) (n : Z) :
  File.Write f p = ((n, None), f') ->
  fdata f' = fdata f ++ p /\ room f' = Z.max 0 (room f) - len p /\
  len p <= Z.max 0 (room f).
Proof.
  unfold File.Write. intros H.
  destruct (len p <=? Z.max 0 (room f)) eqn:Hfit; [|discriminate].
  apply Z.leb_le in Hfit. injection H as _ H. subst f'. cbn. auto.
Qed.

Lemma File_Write_fits (f : osfile) (p : list byte) :
  len p <= room f ->
  File.Write f p = ((len p, None), mkFile (fileName f) (fdata f ++ p) (room f - len p)).
Proof.
  intros H. unfold File.Write. pose proof (len_nonneg p).
  rewrite Z.max_r by lia.
  replace (len p <=? room f) with true by (symmetry; apply Z.leb_le; exact H).
  reflexivity.
Qed.

Lemma len_nil_inv {A} (l : list A) : len l = 0 -> l = [].
Proof. unfold len. destruct l; [reflexivity | simpl; lia]. Qed.

Lemma bufio_Flush_fileName (b : bufio.Writer) :
  fileName (bufio.wr (snd (bufio.Flush b))) = fileName (bufio.wr b).
Proof.
  unfold bufio.Flush.
  destruct (bufio.err b); [reflexivity|].
  destruct (bufio.Buffered b =? 0); [reflexivity|].
  pose proof (File_Write_fileName (bufio.wr b) (bufio.buf b)) as Hn.
  destruct (File.Write (bufio.wr b) (bufio.buf b)) as [[n e] f]. cbn [snd] in Hn.
  destruct e as [e|]; [exact Hn|].
  destruct (n <? bufio.Buffered b); exact Hn.
Qed.

(** A flush that succeeds moves the buffer to the end of the file. *)
Lemma bufio_Flush_ok (b b' : bufio.Writer) :
  bufio.Flush b = (None, b') ->
  bufio.err b = None /\ bufio.err b' = None /\ bufio.buf b' = [] /\
  fdata (bufio.wr b') = fdata (bufio.wr b) ++ bufio.buf b /\
  room (bufio.wr b') = room (bufio.wr b) - len (bufio.buf b).
Proof.
  unfold bufio.Flush. intros H.
  destruct (bufio.err b) as [e|] eqn:He; [discriminate|].
  split; [reflexivity|].
  destruct (bufio.Buffered b =? 0) eqn:Hn.
  - injection H as H. subst b'. apply Z.eqb_eq in Hn.
    unfold bufio.Buffered in Hn. rewrite (len_nil_inv _ Hn).
    rewrite app_nil_r. unfold len. simpl. repeat split; try assumption; try lia.
  - apply Z.eqb_neq in Hn. unfold bufio.Buffered in *.
    destruct (File.Write (bufio.wr b) (bufio.buf b)) as [[n e] f] eqn:Hw.
    destruct e as [e|]; [discriminate|].
    destruct (n <? len (bufio.buf b)); [discriminate|].
    injection H as H. subst b'. cbn.
    apply File_Write_ok in Hw. destruct Hw as [Hd [Hr Hfit]].
    pose proof (len_nonneg (bufio.buf b)).
    repeat split; try assumption. lia.
Qed.

(** A flush succeeds when the device has room for the buffer. *)
Lemma bufio_Flush_fits (b : bufio.Writer) :
  bufio.err b = None ->
  len (bufio.buf b) <= room (bufio.wr b) ->
  fst (bufio.Flush b) = None.
Proof.
  intros He Hfit. unfold bufio.Flush. rewrite He.
  destruct (bufio.Buffered b =? 0); [reflexivity|].
  rewrite File_Write_fits by exact Hfit.
  unfold bufio.Buffered. rewrite Z.ltb_irrefl. reflexivity.
Qed.

(** The error of a writer is sticky. *)
Lemma bufio_sticky (b : bufio.Writer) (e : error) (p : list byte) :
  bufio.err b = Some e ->
  bufio.Write b p = ((0, Some e), b) /\ bufio.Flush b = (Some e, b).
Proof.
  intros He. split.
  - unfold bufio.Write. rewrite bufio_Write_loop_exit
      by (rewrite He; apply andb_false_r).
    rewrite He. reflexivity.
  - unfold bufio.Flush. rewrite He. reflexivity.
Qed.

Lemma bufio_Write_loop_fileName (fuel : nat) :
  forall b p nn,
    fileName (bufio.wr (fst (fst (bufio.Write_loop fuel b p nn))))
    = fileName (bufio.wr b).
Proof.
  induction fuel as [|fuel IH]; intros b p nn; [reflexivity|].
  rewrite bufio_Write_loop_step.
  destruct ((len p >? bufio.Available b) && noError (bufio.err b)); [|reflexivity].
  destruct (bufio.Buffered b =? 0).
  - pose proof (File_Write_fileName (bufio.wr b) p) as Hn.
    destruct (File.Write (bufio.wr b) p) as [[n e] f]. cbn [snd] in Hn.
    rewrite IH. exact Hn.
  - cbv zeta.
    match goal with |- context [bufio.Flush ?x] =>
      pose proof (bufio_Flush_fileName x) as Hn; destruct (bufio.Flush x) as [o b2] end.
    cbn [snd bufio.wr] in Hn. rewrite IH. exact Hn.
Qed.

(** The loop moves bytes from the slice to the file without losing or
    reordering any, and it has no error to report when the device has room
    for the buffer and the slice. *)
Lemma bufio_Write_loop_data (fuel : nat) :
  forall b p nn b' p' nn',
    bufio.Write_loop fuel b p nn = (b', p', nn') ->
    bufio.err b = None ->
    (bufio.err b' = None ->
     fdata (bufio.wr b') ++ bufio.buf b' ++ p'
       = fdata (bufio.wr b) ++ bufio.buf b ++ p /\
     room (bufio.wr b') - len (bufio.buf b') - len p'
       = room (bufio.wr b) - len (bufio.buf b) - len p) /\
    (len (bufio.buf b) + len p <= room (bufio.wr b) -> bufio.err b' = None).
Proof.
  induction fuel as [|fuel IH]; intros b p nn b' p' nn' H He.
  - injection H as -> -> _. split; [intros _; split; reflexivity | intros _; exact He].
  - rewrite bufio_Write_loop_step in H.
    destruct ((len p >? bufio.Available b) && noError (bufio.err b)) eqn:Hcond;
      [| injection H as -> -> _;
         split; [intros _; split; reflexivity | intros _; exact He]].
    pose proof (len_nonneg p) as Hp. pose proof (len_nonneg (bufio.buf b)) as Hb.
    apply andb_prop in Hcond. destruct Hcond as [Hcond _].
    rewrite Z.gtb_ltb in Hcond. apply Z.ltb_lt in Hcond.
    unfold bufio.Available, bufio.defaultBufSize in Hcond.
    destruct (bufio.Buffered b =? 0) eqn:Hn.
    + apply Z.eqb_eq in Hn. unfold bufio.Buffered in Hn.
      assert (Hnil : bufio.buf b = []) by (apply len_nil_inv; exact Hn).
      destruct (File.Write (bufio.wr b) p) as [[n e] f] eqn:Hw.
      destruct e as [e|].
      * rewrite bufio_Write_loop_exit in H by apply andb_false_r.
        injection H as <- _ _. cbn [bufio.err].
        split; [discriminate|]. intros Hfit.
        rewrite File_Write_fits in Hw by lia. discriminate.
      * pose proof (File_Write_count _ _ _ _ _ Hw) as [_ Hcount].
        rewrite (Hcount eq_refl) in H.
        apply File_Write_ok in Hw. destruct Hw as [Hd [Hr Hfit]].
        apply IH in H; [|reflexivity]. cbn [bufio.err bufio.wr bufio.buf] in H.
        destruct H as [Hdata Herr].
        assert (Hsk : skipn (Z.to_nat (len p)) p = [])
          by (unfold len; rewrite Nat2Z.id; apply skipn_all).
        rewrite Hsk in *. rewrite Hnil in *. rewrite Hd, Hr in *.
        change (len (@nil byte)) with 0 in *.
        split.
        -- intros He'. destruct (Hdata He') as [H1 H2]. split.
           ++ rewrite H1. cbn [app]. rewrite !app_nil_r. reflexivity.
           ++ lia.
        -- intros _. apply Herr. lia.
    + cbv zeta in H.
      pose proof (bufio_copied_range b p) as Hc.
      set (n := bufio.copied b p) in *.
      destruct (bufio.Flush _) as [o b2] eqn:Hfl.
      destruct o as [e|].
      * assert (Hfl' := f_equal fst Hfl). cbn [fst] in Hfl'.
        apply bufio_Flush_result in Hfl. destruct Hfl as [Hfe _].
        rewrite bufio_Write_loop_exit in H by (rewrite Hfe; apply andb_false_r).
        injection H as <- _ _. split; [rewrite Hfe; discriminate|].
        intros Hfit.
        match type of Hfl' with fst (bufio.Flush ?x) = _ =>
          assert (Hok : fst (bufio.Flush x) = None) end.
        { apply bufio_Flush_fits; [exact He|].
          cbn [bufio.buf bufio.wr]. rewrite len_app, len_firstn by exact Hc. lia. }
        rewrite Hfl' in Hok. discriminate.
      * apply bufio_Flush_ok in Hfl. cbn [bufio.err bufio.wr bufio.buf] in Hfl.
        destruct Hfl as [_ [He2 [Hb2 [Hd2 Hr2]]]].
        apply IH in H; [|exact He2]. destruct H as [Hdata Herr].
        rewrite Hb2, Hd2, Hr2 in *. rewrite len_app in *.
        rewrite len_firstn in * by exact Hc.
        rewrite len_skipn in * by exact Hc.
        change (len (@nil byte)) with 0 in *.
        split.
        -- intros He'. destruct (Hdata He') as [H1 H2]. split.
           ++ rewrite H1. cbn [app]. rewrite <- !app_assoc. do 2 f_equal.
              apply firstn_skipn.
           ++ lia.
        -- intros Hfit. apply Herr. lia.
Qed.

Lemma bufio_Write_fileName (b : bufio.Writer) (p : list byte) :
  fileName (bufio.wr (snd (bufio.Write b p))) = fileName (bufio.wr b).
Proof.
  unfold bufio.Write.
  pose proof (bufio_Write_loop_fileName 2 b p 0) as Hn.
  destruct (bufio.Write_loop 2 b p 0) as [[b1 p1] nn]. cbn [fst] in Hn.
  destruct (bufio.err b1); exact Hn.
Qed.

(** A write that reports an error leaves it in the writer. *)
Lemma bufio_Write_error (b b' : bufio.Writer) (p : list byte) (n : Z) (e : error) :
  bufio.Write b p = ((n, Some e), b') -> bufio.err b' = Some e.
Proof.
  unfold bufio.Write. intros H.
  destruct (bufio.Write_loop 2 b p 0) as [[b1 p1] nn].
  destruct (bufio.err b1) as [e1|] eqn:He; [|discriminate].
  injection H as _ He' Hb. subst b' e1. exact He.
Qed.

(** A write that reports no error has put the slice behind the bytes of the
    file and of the buffer. *)
Lemma bufio_Write_data (b b' : bufio.Writer) (p : list byte) (n : Z) :
  bufio.Write b p = ((n, None), b') ->
  bufio.err b = None /\ bufio.err b' = None /\
  fdata (bufio.wr b') ++ bufio.buf b'
    = (fdata (bufio.wr b) ++ bufio.buf b) ++ p /\
  room (bufio.wr b') - len (bufio.buf b')
    = room (bufio.wr b) - len (bufio.buf b) - len p.
Proof.
  intros H.
  destruct (bufio.err b) as [e|] eqn:He.
  { destruct (bufio_sticky b e p He) as [Hw _]. rewrite Hw in H. discriminate. }
  split; [reflexivity|].
  unfold bufio.Write in H.
  destruct (bufio.Write_loop 2 b p 0) as [[b1 p1] nn] eqn:Hl.
  apply bufio_Write_loop_data in Hl; [|exact He].
  destruct (bufio.err b1) as [e1|] eqn:He1; [discriminate|].
  destruct Hl as [Hdata _]. destruct (Hdata eq_refl) as [H1 H2].
  injection H as _ Hb. subst b'. cbn [bufio.err bufio.wr bufio.buf].
  split; [reflexivity|]. split.
  - rewrite <- app_assoc. exact H1.
  - rewrite len_app. lia.
Qed.

(** A write succeeds when the device has room for the buffer and the slice. *)
Lemma bufio_Write_fits (b : bufio.Writer) (p : list byte) :
  bufio.err b = None ->
  len (bufio.buf b) + len p <= room (bufio.wr b) ->
  fst (bufio.Write b p) = (len p, None).
Proof.
  intros He Hfit.
  destruct (bufio.Write b p) as [[n e] b'] eqn:Hw. cbn [fst].
  destruct e as [e|].
  - exfalso. unfold bufio.Write in Hw.
    destruct (bufio.Write_loop 2 b p 0) as [[b1 p1] nn] eqn:Hl.
    apply bufio_Write_loop_data in Hl; [|exact He].
    destruct Hl as [_ Hok]. rewrite (Hok Hfit) in Hw. discriminate.
  - rewrite (bufio_Write_ok _ _ _ _ Hw). reflexivity.
Qed.

(** ** The store, continued *)

Lemma store_Append_Name (s : store.store) (data : list byte) :
  store.Name (snd (store.Append s data)) = store.Name s.
Proof.
  unfold store.Append, binary_Write, store.Name, store.File.
  pose proof (bufio_Write_fileName (store.buf s) (enc.PutUint64 (u64 (len data)))) as H1.
  destruct (bufio.Write (store.buf s) _) as [[n1 e1] b1]. cbn [snd] in H1.
  destruct e1 as [e1|]; [exact H1|].
  pose proof (bufio_Write_fileName b1 data) as H2.
  destruct (bufio.Write b1 data) as [[n2 e2] b2]. cbn [snd] in H2.
  destruct e2; cbn [snd store.buf]; congruence.
Qed.

(** A successful append puts the frame of the payload, its length in eight
    big-endian bytes and then its bytes, at the end of the contents. *)
Lemma store_Append_data (s s' : store.store) (data : list byte) (r : Z * Z) :
  store.Append s data = (Ok r, s') ->
  bufio.err (store.buf s) = None /\ bufio.err (store.buf s') = None /\
  contents s' = contents s ++ enc.PutUint64 (u64 (len data)) ++ data /\
  room (store.File s') - len (bufio.buf (store.buf s'))
    = room (store.File s) - len (bufio.buf (store.buf s)) - (len data + lenWidth).
Proof.
  unfold store.Append, binary_Write, contents, store.File. intros H.
  destruct (bufio.Write (store.buf s) _) as [[n1 e1] b1] eqn:H1.
  destruct e1 as [e1|]; [discriminate|].
  destruct (bufio.Write b1 data) as [[n2 e2] b2] eqn:H2.
  destruct e2 as [e2|]; [discriminate|].
  injection H as _ Hs. subst s'. cbn [store.buf].
  apply bufio_Write_data in H1. apply bufio_Write_data in H2.
  destruct H1 as [Ha [_ [Hd1 Hr1]]]. destruct H2 as [_ [Hb [Hd2 Hr2]]].
  split; [exact Ha|]. split; [exact Hb|]. split.
  - rewrite Hd2, Hd1. rewrite <- !app_assoc. reflexivity.
  - rewrite Hr2, Hr1. rewrite len_PutUint64. unfold posWidth, lenWidth. lia.
Qed.

(** An append that fails leaves its error in the writer of the store. *)
Lemma store_Append_error (s s' : store.store) (data : list byte) (e : error) :
  store.Append s data = (Err e, s') -> bufio.err (store.buf s') = Some e.
Proof.
  unfold store.Append, binary_Write. intros H.
  destruct (bufio.Write (store.buf s) _) as [[n1 e1] b1] eqn:H1.
  destruct e1 as [e1|].
  - injection H as He Hs. subst s' e1. apply bufio_Write_error in H1. exact H1.
  - destruct (bufio.Write b1 data) as [[n2 e2] b2] eqn:H2.
    destruct e2 as [e2|]; [|discriminate].
    injection H as He Hs. subst s' e2. apply bufio_Write_error in H2. exact H2.
Qed.

Lemma i64_small (z : Z) : 0 <= z < 2 ^ 63 -> i64 z = z.
Proof. intros H. unfold i64. rewrite Z.mod_small by lia. lia. Qed.


(** Reading the middle part of a file. *)
Lemma File_ReadAt_middle (f : osfile) (a x rest : list byte) :
  fdata f = a ++ x ++ rest ->
  File.ReadAt f (len x) (len a) = (x, None).
Proof.
  intros Hf. unfold File.ReadAt. rewrite Hf.
  pose proof (len_nonneg a) as Ha.
  replace (len a <? 0) with false by (symmetry; apply Z.ltb_ge; exact Ha).
  assert (Hx : firstn (Z.to_nat (len x)) (skipn (Z.to_nat (len a)) (a ++ x ++ rest)) = x).
  { unfold len. rewrite !Nat2Z.id.
    rewrite skipn_app, skipn_all, Nat.sub_diag. cbn [skipn app].
    rewrite firstn_app, firstn_all, Nat.sub_diag. cbn [firstn]. apply app_nil_r. }
  rewrite Hx, Z.ltb_irrefl. reflexivity.
Qed.


(** What [store.Read] and [store.ReadAt] read from is the contents of the
    store: their flush succeeds when the device has room. *)
Lemma store_flush (s : store.store) :
  bufio.err (store.buf s) = None -> flushable s ->
  exists b, bufio.Flush (store.buf s) = (None, b) /\
            bufio.err b = None /\ bufio.buf b = [] /\
            fdata (bufio.wr b) = contents s.
Proof.
  intros He Hfl.
  pose proof (bufio_Flush_fits (store.buf s) He Hfl) as Hok.
  destruct (bufio.Flush (store.buf s)) as [o b] eqn:Hf. cbn [fst] in Hok. subst o.
  exists b. split; [reflexivity|].
  apply bufio_Flush_ok in Hf. destruct Hf as [_ [He' [Hb [Hd _]]]].
  repeat split; assumption.
Qed.

(** A frame in the contents of a store is read back as its payload. *)
Lemma store_Read_frame (s : store.store) (a rest data : list byte) :
  bufio.err (store.buf s) = None -> flushable s ->
  contents s = a ++ frame data ++ rest ->
  len a + lenWidth < 2 ^ 63 ->
  len data <= maxAlloc ->
  fst (store.Read s (len a)) = Ok data.
Proof.
  intros He Hfl Hc Hpos Hsmall.
  destruct (store_flush s He Hfl) as (b & Hf & _ & _ & Hd).
  pose proof (len_nonneg a) as Ha. pose proof (len_nonneg data) as Hdata.
  assert (Hw : lenWidth = 8) by reflexivity.
  assert (Hm : maxAlloc = 2 ^ 48) by reflexivity.
  unfold store.Read. rewrite Hf. unfold store.File. cbn [store.buf].
  rewrite i64_small by lia.
  replace lenWidth with (len (enc.PutUint64 (len data))) at 1 by reflexivity.
  rewrite (File_ReadAt_middle (bufio.wr b) a (enc.PutUint64 (len data)) (data ++ rest))
    by (rewrite Hd, Hc; unfold frame; rewrite <- app_assoc; reflexivity).
  rewrite <- (app_nil_r (enc.PutUint64 (len data))), Uint64_PutUint64.
  rewrite (u64_small (len data)) by lia.
  replace (maxAlloc <? len data) with false by (symmetry; apply Z.ltb_ge; exact Hsmall).
  rewrite u64_small by lia. rewrite i64_small by lia.
  replace (len a + lenWidth) with (len (a ++ enc.PutUint64 (len data)))
    by (rewrite len_app; reflexivity).
  rewrite (File_ReadAt_middle (bufio.wr b) (a ++ enc.PutUint64 (len data)) data rest)
    by (rewrite Hd, Hc; unfold frame; rewrite <- !app_assoc; reflexivity).
  reflexivity.
Qed.

(** A run of successful appends only adds to the contents. *)
Lemma store_Appends_data (ds : list (list byte)) :
  forall s s',
    store_Appends s ds = Some s' ->
    bufio.err (store.buf s) = None ->
    bufio.err (store.buf s') = None /\
    contents s' = contents s ++ concat (map (fun d => enc.PutUint64 (u64 (len d)) ++ d) ds).
Proof.
  induction ds as [|d ds IH]; intros s s' H He.
  - injection H as <-. split; [exact He|]. cbn. rewrite app_nil_r. reflexivity.
  - cbn [store_Appends] in H.
    destruct (store.Append s d) as [[r | e |] s1] eqn:Ha; try discriminate.
    apply store_Append_data in Ha. destruct Ha as [_ [He1 [Hc1 _]]].
    destruct (IH s1 s' H He1) as [He' Hc'].
    split; [exact He'|].
    rewrite Hc', Hc1. cbn [map concat]. rewrite <- !app_assoc. reflexivity.
Qed.

Lemma store_Append_ok_inv (s s' : store.store) (data : list byte) (r : Z * Z) :
  store_ok s ->
  store.Append s data = (Ok r, s') ->
  len (contents s ++ frame data) < 2 ^ 64 ->
  store_ok s' /\ contents s' = contents s ++ frame data /\
  r = (len data + lenWidth, len (contents s)).
Proof.
  intros [He Hsize] Ha Hfit.
  pose proof (len_nonneg (contents s)) as Hc. pose proof (len_nonneg data) as Hd.
  unfold frame in *. rewrite !len_app, len_PutUint64 in Hfit.
  assert (Hw : lenWidth = 8) by reflexivity. assert (Hp : posWidth = 8) by reflexivity.
  pose proof (store_Append_data _ _ _ _ Ha) as [_ [He' [Hc' _]]].
  apply store_Append_cases in Ha. destruct Ha as [[e [Hr _]] | [Hr Hs']]; [discriminate|].
  rewrite (u64_small (len data)) in Hc' by lia.
  rewrite (u64_small (len data + lenWidth)) in Hr, Hs' by lia.
  rewrite u64_small in Hs' by lia.
  split; [split|split].
  - exact He'.
  - rewrite Hs', Hc', Hsize. rewrite !len_app, len_PutUint64. lia.
  - exact Hc'.
  - rewrite <- Hsize. congruence.
Qed.

Lemma store_Appends_ok (ds : list (list byte)) :
  forall s s',
    store_ok s ->
    store_Appends s ds = Some s' ->
    len (contents s ++ concat (map frame ds)) < 2 ^ 64 ->
    store_ok s' /\ contents s' = contents s ++ concat (map frame ds).
Proof.
  induction ds as [|d ds IH]; intros s s' Hok H Hfit.
  - injection H as <-. split; [exact Hok|]. cbn. rewrite app_nil_r. reflexivity.
  - cbn [store_Appends] in H. cbn [map concat] in *.
    destruct (store.Append s d) as [[r | e |] s1] eqn:Ha; try discriminate.
    pose proof (len_nonneg (concat (map frame ds))) as Hrest.
    apply store_Append_ok_inv in Ha; [|exact Hok|].
    + destruct Ha as [Hok1 [Hc1 _]].
      destruct (IH s1 s' Hok1 H) as [Hok' Hc'].
      * rewrite Hc1, <- app_assoc. exact Hfit.
      * split; [exact Hok'|]. rewrite Hc', Hc1, <- app_assoc. reflexivity.
    + rewrite !len_app in *. lia.
Qed.

(** X1: The file of a store is its frames, one after the other, and [size] is
    the end of the data: a store made by [newStore] over a file, after a run
    of successful appends, holds the bytes of the file followed by the frame
    of each payload in order, and its size is their length. *)
Theorem store_contents_are_frames
  (f : osfile) (s s' : store.store) (ds : list (list byte)) :
  store.newStore f = Ok s ->
  store_Appends s ds = Some s' ->
  len (fdata f ++ concat (map frame ds)) < 2 ^ 64 ->
  contents s' = fdata f ++ concat (map frame ds) /\
  store.size s' = len (contents s').
Proof.
  unfold store.newStore. intros Hnew Hrun Hfit.
  injection Hnew as <-.
  pose proof (len_nonneg (fdata f)) as Hf.
  pose proof (len_nonneg (concat (map frame ds))) as Hr.
  assert (Hc : contents (store.mkStore (bufio.NewWriter f) (u64 (len (fdata f))))
               = fdata f) by (unfold contents; cbn; apply app_nil_r).
  destruct (store_Appends_ok ds
              (store.mkStore (bufio.NewWriter f) (u64 (len (fdata f)))) s')
    as [[_ Hsize] Hdata].
  - split; [reflexivity|]. cbn [store.size]. rewrite Hc.
    apply u64_small. rewrite len_app in Hfit. lia.
  - exact Hrun.
  - rewrite Hc. exact Hfit.
  - rewrite Hc in Hdata. split; assumption.
Qed.

Lemma store_contents_are_frames_witness :
  contents (snd (store.Append (snd (store.Append testStore hello)) hello))
    = [] ++ concat (map frame [hello; hello]) /\
  store.size (snd (store.Append (snd (store.Append testStore hello)) hello))
    = len (contents (snd (store.Append (snd (store.Append testStore hello)) hello))).
Proof.
  apply (store_contents_are_frames (OpenFile testDir (StoreName 16)) testStore
           _ [hello; hello]).
  - reflexivity.
  - vm_compute. reflexivity.
  - vm_compute. reflexivity.
Defined.

(** X2: Read-your-writes: the payload of a successful append is read back at
    the position the append has returned, also after later appends, as long
    as the device has room for the bytes still in the buffer. *)
Theorem store_Read_returns_appended
  (s s1 s2 : store.store) (data : list byte) (ds : list (list byte))
  (bytesWritten pos : Z) :
  store_ok s ->
  store.Append s data = (Ok (bytesWritten, pos), s1) ->
  store_Appends s1 ds = Some s2 ->
  store.size s + lenWidth < 2 ^ 63 ->
  len data <= maxAlloc ->
  flushable s2 ->
  fst (store.Read s2 pos) = Ok data.
Proof.
  intros Hok Ha Hrun Hpos Hsmall Hfl.
  destruct Hok as [He Hsize].
  pose proof (len_nonneg data) as Hd.
  assert (Hm : maxAlloc = 2 ^ 48) by reflexivity.
  pose proof (store_Append_data _ _ _ _ Ha) as [_ [He1 [Hc1 _]]].
  rewrite u64_small in Hc1 by lia.
  apply store_Append_cases in Ha.
  destruct Ha as [[e [Hr _]] | [Hr _]]; [discriminate|].
  injection Hr as _ Hp. subst pos.
  destruct (store_Appends_data ds s1 s2 Hrun He1) as [He2 Hc2].
  rewrite Hsize.
  apply (store_Read_frame s2 (contents s) (concat (map (fun d => enc.PutUint64 (u64 (len d)) ++ d) ds)) data).
  - exact He2.
  - exact Hfl.
  - rewrite Hc2, Hc1. unfold frame. rewrite <- !app_assoc. reflexivity.
  - rewrite <- Hsize. exact Hpos.
  - exact Hsmall.
Qed.

Lemma store_Read_returns_appended_witness :
  fst (store.Read (snd (store.Append (snd (store.Append testStore hello)) large)) 0)
    = Ok hello.
Proof.
  apply (store_Read_returns_appended testStore (snd (store.Append testStore hello))
           _ hello [large] 19 0).
  - split; reflexivity.
  - vm_compute. reflexivity.
  - vm_compute. reflexivity.
  - vm_compute. reflexivity.
  - vm_compute. discriminate.
  - vm_compute. discriminate.
Defined.

(** X3: Once an append has failed, the store stays failed: every later append,
    read, raw read and close returns the same error. *)
Theorem store_error_is_sticky
  (s s' : store.store) (data : list byte) (e : error) :
  store.Append s data = (Err e, s') ->
  forall (data' : list byte) (pos n off : Z),
    fst (store.Append s' data') = Err e /\
    fst (store.Read s' pos) = Err e /\
    snd (fst (store.ReadAt s' n off)) = Some e /\
    fst (store.Close s') = Some e.
Proof.
  intros Ha data' pos n off.
  apply store_Append_error in Ha.
  split; [|split; [|split]].
  - unfold store.Append, binary_Write.
    destruct (bufio_sticky (store.buf s') e (enc.PutUint64 (u64 (len data'))) Ha)
      as [Hw _].
    rewrite Hw. reflexivity.
  - unfold store.Read.
    destruct (bufio_sticky (store.buf s') e [] Ha) as [_ Hf].
    rewrite Hf. reflexivity.
  - unfold store.ReadAt.
    destruct (bufio_sticky (store.buf s') e [] Ha) as [_ Hf].
    rewrite Hf. reflexivity.
  - unfold store.Close.
    destruct (bufio_sticky (store.buf s') e [] Ha) as [_ Hf].
    rewrite Hf. reflexivity.
Qed.

Lemma store_error_is_sticky_witness :
  fst (store.Append (snd (store.Append smallStore large)) hello) = Err ENOSPC /\
  fst (store.Read (snd (store.Append smallStore large)) 0) = Err ENOSPC /\
  snd (fst (store.ReadAt (snd (store.Append smallStore large)) 8 0)) = Some ENOSPC /\
  fst (store.Close (snd (store.Append smallStore large))) = Some ENOSPC.
Proof.
  apply (store_error_is_sticky smallStore _ large ENOSPC).
  vm_compute. reflexivity.
Defined.

Lemma store_Append_fits (s : store.store) (data : list byte) :
  bufio.err (store.buf s) = None ->
  len (bufio.buf (store.buf s)) + (len data + lenWidth) <= room (store.File s) ->
  fst (store.Append s data) = Ok (u64 (len data + lenWidth), store.size s).
Proof.
  intros He Hfit.
  assert (Hw : lenWidth = 8) by reflexivity.
  pose proof (len_nonneg data) as Hd.
  pose proof (len_nonneg (bufio.buf (store.buf s))) as Hb.
  destruct (store.Append s data) as [r s'] eqn:Ha. cbn [fst].
  pose proof (store_Append_cases _ _ _ _ Ha) as [[e [Hr _]] | [Hr _]]; [|exact Hr].
  exfalso. subst r. revert Ha.
  unfold store.Append, binary_Write, store.File in *.
  pose proof (bufio_Write_fits (store.buf s) (enc.PutUint64 (u64 (len data))) He) as H1.
  rewrite len_PutUint64 in H1. unfold posWidth in H1.
  destruct (bufio.Write (store.buf s) _) as [[n1 e1] b1] eqn:Hw1.
  cbn [fst] in H1. injection (H1 ltac:(lia)) as Hn1 He1. subst e1.
  apply bufio_Write_data in Hw1. destruct Hw1 as [_ [Heb1 [_ Hr1]]].
  rewrite len_PutUint64 in Hr1. unfold posWidth in Hr1.
  pose proof (bufio_Write_fits b1 data Heb1) as H2.
  destruct (bufio.Write b1 data) as [[n2 e2] b2].
  cbn [fst] in H2. injection (H2 ltac:(lia)) as Hn2 He2. subst e2.
  discriminate.
Qed.

(** X4: An append succeeds when no write has failed and the device has room for
    the bytes in the buffer and for the frame: it returns the length of the
    frame and the size of the store, and the device still has room for the
    buffer afterwards. *)
Theorem store_Append_succeeds_with_room (s : store.store) (data : list byte) :
  bufio.err (store.buf s) = None ->
  len (bufio.buf (store.buf s)) + (len data + lenWidth) <= room (store.File s) ->
  fst (store.Append s data) = Ok (u64 (len data + lenWidth), store.size s) /\
  flushable (snd (store.Append s data)).
Proof.
  intros He Hfit.
  pose proof (store_Append_fits s data He Hfit) as Hok.
  split; [exact Hok|].
  destruct (store.Append s data) as [r s'] eqn:Ha. cbn [fst snd] in *. subst r.
  apply store_Append_data in Ha. destruct Ha as [_ [_ [_ Hslack]]].
  unfold flushable. lia.
Qed.

Lemma store_Append_succeeds_with_room_witness :
  fst (store.Append testStore large)
    = Ok (u64 (len large + lenWidth), store.size testStore) /\
  flushable (snd (store.Append testStore large)).
Proof.
  apply (store_Append_succeeds_with_room testStore large).
  - reflexivity.
  - vm_compute. discriminate.
Defined.

(** X5: [store.Close] leaves every appended byte in the file: when it reports no
    error the buffer is empty and the file holds the contents of the store,
    [size] bytes; and it reports none when the device has room for the
    buffer. *)
Theorem store_Close_persists (s s' : store.store) (e : option error) :
  store_ok s ->
  store.Close s = (e, s') ->
  (flushable s -> e = None) /\
  (e = None ->
   bufio.buf (store.buf s') = [] /\
   fdata (store.File s') = contents s /\
   len (fdata (store.File s')) = store.size s).
Proof.
  intros [He Hsize]. unfold store.Close. intros H.
  destruct (bufio.Flush (store.buf s)) as [o b] eqn:Hf.
  injection H as Ho Hs. subst o s'. split.
  - intros Hfl. pose proof (bufio_Flush_fits _ He Hfl) as Hok.
    rewrite Hf in Hok. exact Hok.
  - intros ->. apply bufio_Flush_ok in Hf. destruct Hf as [_ [_ [Hb [Hd _]]]].
    unfold store.File, contents in *. cbn [store.buf].
    repeat split; try assumption. rewrite Hd, Hsize. reflexivity.
Qed.

Lemma store_Close_persists_witness :
  (flushable (snd (store.Append testStore hello)) ->
   fst (store.Close (snd (store.Append testStore hello))) = None) /\
  (fst (store.Close (snd (store.Append testStore hello))) = None ->
   bufio.buf (store.buf (snd (store.Close (snd (store.Append testStore hello))))) = [] /\
   fdata (store.File (snd (store.Close (snd (store.Append testStore hello)))))
     = contents (snd (store.Append testStore hello)) /\
   len (fdata (store.File (snd (store.Close (snd (store.Append testStore hello))))))
     = store.size (snd (store.Append testStore hello))).
Proof.
  apply (store_Close_persists (snd (store.Append testStore hello))).
  - split; reflexivity.
  - apply surjective_pairing.
Defined.



(** ** The index, continued *)

Lemma index_Read_EOF (idx : index.index) (i : Z) :
  0 <= i < 2 ^ 32 -> 0 <= index.size idx < (i + 1) * entryWidth ->
  index.Read idx i = Err EOF.
Proof.
  intros Hi Hsz. unfold index.Read.
  assert (Hw : entryWidth = 12) by reflexivity.
  destruct (index.size idx =? 0); [reflexivity|].
  replace (i =? -1) with false by (symmetry; apply Z.eqb_neq; lia).
  rewrite (u32_small i) by lia.
  rewrite (u64_small (i * entryWidth)) by lia.
  rewrite (u64_small (i * entryWidth + entryWidth)) by lia.
  replace (i * entryWidth + entryWidth >? index.size idx) with true
    by (symmetry; rewrite Z.gtb_ltb; apply Z.ltb_lt; lia).
  reflexivity.
Qed.

(** X10: Reads outside the entries fail with [EOF]: every read of an empty
    index, the one of the last entry included, and every read of an entry
    that does not lie within [size]. *)
Theorem index_Read_out_of_range (idx : index.index) (i : Z) :
  (index.size idx = 0 -> index.Read idx i = Err EOF) /\
  (0 <= i < 2 ^ 32 -> 0 <= index.size idx < (i + 1) * entryWidth ->
   index.Read idx i = Err EOF).
Proof.
  split.
  - apply index_Read_empty.
  - apply index_Read_EOF.
Qed.

Lemma index_Read_out_of_range_witness :
  index.Read testIndex (-1) = Err EOF /\ index.Read fullIndex 3 = Err EOF.
Proof.
  split.
  - apply (proj1 (index_Read_out_of_range testIndex (-1))). reflexivity.
  - apply (proj2 (index_Read_out_of_range fullIndex 3)); vm_compute; split; congruence.
Defined.

(** X11: The first entry round-trips: after a write to an empty index with room
    for an entry, the read of entry 0 and the read of the last entry return
    the offset and the position that were written. *)
Theorem index_Write_then_Read (idx : index.index) (offset storePosition : Z) :
  index.size idx = 0 ->
  entryWidth <= len (index.mmap idx) ->
  0 <= offset < 2 ^ 32 ->
  0 <= storePosition < 2 ^ 64 ->
  fst (index.Write idx offset storePosition) = Ok tt /\
  index.Read (snd (index.Write idx offset storePosition)) 0
    = Ok (offset, storePosition) /\
  index.Read (snd (index.Write idx offset storePosition)) (-1)
    = Ok (offset, storePosition).
Proof.
  intros Hs Hroom Ho Hp.
  assert (Hw : entryWidth = 12) by reflexivity.
  rewrite index_Write_room by lia. cbn [fst snd].
  destruct (index_Read_first_written idx offset storePosition Hs) as [H0 H1].
  rewrite u32_small in H0, H1 by exact Ho.
  rewrite u64_small in H0, H1 by exact Hp.
  split; [reflexivity|]. split; assumption.
Qed.

Lemma index_Write_then_Read_witness :
  fst (index.Write testIndex 7 27) = Ok tt /\
  index.Read (snd (index.Write testIndex 7 27)) 0 = Ok (7, 27) /\
  index.Read (snd (index.Write testIndex 7 27)) (-1) = Ok (7, 27).
Proof.
  apply (index_Write_then_Read testIndex 7 27).
  - reflexivity.
  - vm_compute. discriminate.
  - lia.
  - lia.
Defined.

(** X12: As the code is written, the read of an entry after the first panics:
    for every entry number from 1 on whose bytes lie within [size], the low
    bound of the slice [idx.mmap[entryStart:offWidth]] is above its high
    bound; and so does the read of the last entry of an index of less than
    2^32 bytes with more than one entry. *)
Theorem index_Read_panics_after_first (idx : index.index) (i : Z) :
  1 <= i < 2 ^ 32 ->
  (i + 1) * entryWidth <= index.size idx ->
  index.Read idx i = Panic /\
  (index.size idx = (i + 1) * entryWidth -> index.size idx < 2 ^ 32 ->
   index.Read idx (-1) = Panic).
Proof.
  intros Hi Hsz.
  pose proof (index_Read_beyond_first idx i Hi Hsz) as Hp.
  split; [exact Hp|]. intros Hlast Hsmall.
  assert (Hw : entryWidth = 12) by reflexivity.
  unfold index.Read in *.
  replace (index.size idx =? 0) with false in * by (symmetry; apply Z.eqb_neq; lia).
  replace (i =? -1) with false in Hp by (symmetry; apply Z.eqb_neq; lia).
  replace (-1 =? -1) with true by reflexivity.
  assert (Hq : u32 (u32 (index.size idx) / u32 entryWidth - 1) = u32 i).
  { rewrite Hlast, (u32_small ((i + 1) * entryWidth)) by lia.
    replace (u32 entryWidth) with entryWidth by reflexivity.
    rewrite Z.div_mul by lia. f_equal. lia. }
  rewrite Hq. exact Hp.
Qed.

Lemma index_Read_panics_after_first_witness :
  index.Read fullIndex 2 = Panic /\ index.Read fullIndex (-1) = Panic.
Proof.
  destruct (index_Read_panics_after_first fullIndex 2) as [H1 H2].
  - lia.
  - vm_compute. discriminate.
  - split; [exact H1 | apply H2; reflexivity].
Defined.

Lemma index_Write_keeps (idx idx' : index.index) (offset storePosition : Z)
      (r : outcome unit) :
  0 <= index.size idx -> index.size idx + entryWidth < 2 ^ 64 ->
  index.Write idx offset storePosition = (r, idx') ->
  index.file idx' = index.file idx /\
  len (index.mmap idx') = len (index.mmap idx) /\
  firstn (Z.to_nat (index.size idx)) (index.mmap idx')
    = firstn (Z.to_nat (index.size idx)) (index.mmap idx) /\
  ((r = Ok tt /\ index.size idx' = index.size idx + entryWidth /\
    index.size idx' <= len (index.mmap idx)) \/
   (r = Err EOF /\ idx' = idx)).
Proof.
  intros H0 H1 H.
  assert (Hw : entryWidth = 12) by reflexivity.
  destruct (Z_lt_le_dec (len (index.mmap idx)) (index.size idx + entryWidth))
    as [Hlt | Hle].
  - rewrite index_Write_full in H by assumption. injection H as <- <-.
    split; [reflexivity|]. split; [reflexivity|]. split; [reflexivity|].
    right. split; reflexivity.
  - rewrite index_Write_room in H by assumption. injection H as <- <-.
    split; [reflexivity|]. split; [apply len_written; assumption|]. split.
    + unfold written. cbn [index.mmap].
      rewrite firstn_app.
      rewrite length_firstn.
      replace (Z.to_nat (index.size idx)
               - Nat.min (Z.to_nat (index.size idx)) (length (index.mmap idx)))%nat
        with 0%nat by (unfold len in *; lia).
      cbn [firstn]. rewrite app_nil_r, firstn_firstn, Nat.min_id. reflexivity.
    + left. unfold written. cbn [index.size].
      split; [reflexivity|]. split; [reflexivity | exact Hle].
Qed.

Lemma firstn_le_eq {A} (a b : nat) (l1 l2 : list A) :
  (b <= a)%nat -> firstn a l1 = firstn a l2 -> firstn b l1 = firstn b l2.
Proof.
  intros Hle H.
  rewrite <- (Nat.min_l b a Hle), <- !firstn_firstn, H. reflexivity.
Qed.

(** X13: The index is append-only: a run of writes never panics, never changes
    the length of the mapped region nor the entries that were there, and
    advances [size] by [entryWidth] for each write that succeeds, without
    leaving the region. *)
Theorem index_Writes_append_only (es : list (Z * Z)) :
  forall (idx idx' : index.index) (rs : list (outcome unit)),
    0 <= index.size idx <= len (index.mmap idx) ->
    len (index.mmap idx) < 2 ^ 63 ->
    index_Writes idx es = (rs, idx') ->
    ~ In Panic rs /\
    len (index.mmap idx') = len (index.mmap idx) /\
    firstn (Z.to_nat (index.size idx)) (index.mmap idx')
      = firstn (Z.to_nat (index.size idx)) (index.mmap idx) /\
    index.size idx' = index.size idx + entryWidth * len (successes rs) /\
    index.size idx' <= len (index.mmap idx').
Proof.
  assert (Hw : entryWidth = 12) by reflexivity.
  induction es as [|[offset storePosition] es IH]; intros idx idx' rs Hs Hm H.
  - injection H as <- <-. cbn. split; [tauto|]. repeat split; lia.
  - cbn [index_Writes] in H.
    destruct (index.Write idx offset storePosition) as [r idx1] eqn:Hwr.
    apply index_Write_keeps in Hwr; [|lia|lia].
    destruct Hwr as [_ [Hlen [Hold Hcase]]].
    destruct (index_Writes idx1 es) as [rs1 idx2] eqn:Hrun.
    destruct Hcase as [[-> [Hsize Hfit]] | [-> ->]].
    + injection H as <- <-.
      destruct (IH idx1 idx2 rs1) as [Hnp [Hlen2 [Hold2 [Hsize2 Hfit2]]]];
        [lia | lia | exact Hrun |].
      split; [|split; [|split; [|split]]].
      * cbn [In]. intros [Hp | Hp]; [discriminate | exact (Hnp Hp)].
      * congruence.
      * rewrite <- Hold.
        apply (firstn_le_eq (Z.to_nat (index.size idx1))); [lia | exact Hold2].
      * cbn [successes]. rewrite Hsize2, Hsize.
        unfold len. cbn [length]. lia.
      * exact Hfit2.
    + injection H as <- <-.
      destruct (IH idx idx2 rs1) as [Hnp [Hlen2 [Hold2 [Hsize2 Hfit2]]]];
        [lia | lia | exact Hrun |].
      split; [|split; [|split; [|split]]].
      * cbn [In]. intros [Hp | Hp]; [discriminate | exact (Hnp Hp)].
      * exact Hlen2.
      * exact Hold2.
      * cbn [successes]. exact Hsize2.
      * exact Hfit2.
Qed.

Lemma index_Writes_append_only_witness :
  ~ In Panic [Ok tt; Ok tt; Ok tt; Err EOF] /\
  len (index.mmap (snd (index_Writes testIndex [(0, 0); (1, 27); (2, 54); (3, 81)])))
    = len (index.mmap testIndex) /\
  firstn (Z.to_nat (index.size testIndex))
         (index.mmap (snd (index_Writes testIndex [(0, 0); (1, 27); (2, 54); (3, 81)])))
    = firstn (Z.to_nat (index.size testIndex)) (index.mmap testIndex) /\
  index.size (snd (index_Writes testIndex [(0, 0); (1, 27); (2, 54); (3, 81)]))
    = index.size testIndex + entryWidth * len (successes [Ok tt; Ok tt; Ok tt; Err EOF]) /\
  index.size (snd (index_Writes testIndex [(0, 0); (1, 27); (2, 54); (3, 81)]))
    <= len (index.mmap (snd (index_Writes testIndex [(0, 0); (1, 27); (2, 54); (3, 81)]))).
Proof.
  apply (index_Writes_append_only [(0, 0); (1, 27); (2, 54); (3, 81)] testIndex).
  - vm_compute. split; discriminate.
  - vm_compute. reflexivity.
  - vm_compute. reflexivity.
Defined.

Lemma index_reopen (idx : index.index) (c : Config) (space : Z) :
  0 <= index.size idx <= len (index.mmap idx) ->
  index.size idx < 2 ^ 63 ->
  0 < MaxIndexBytes (Segment c) < 2 ^ 63 ->
  index.Close idx = (None, firstn (Z.to_nat (index.size idx)) (index.mmap idx)) /\
  exists idx',
    index.newIndex (mkFile (index.file idx) (snd (index.Close idx)) space) c = Ok idx' /\
    index.file idx' = index.file idx /\
    index.size idx' = index.size idx /\
    len (index.mmap idx') = MaxIndexBytes (Segment c) /\
    (index.size idx <= MaxIndexBytes (Segment c) ->
     firstn (Z.to_nat (index.size idx)) (index.mmap idx')
       = firstn (Z.to_nat (index.size idx)) (index.mmap idx)).
Proof.
  intros Hs Hb Hmax.
  assert (Hclose : index.Close idx
                   = (None, firstn (Z.to_nat (index.size idx)) (index.mmap idx))).
  { unfold index.Close. rewrite i64_small by lia.
    replace (index.size idx <? 0) with false by (symmetry; apply Z.ltb_ge; lia).
    unfold resize, zeros.
    replace (Z.to_nat (index.size idx - len (index.mmap idx))) with 0%nat by lia.
    cbn [repeat]. rewrite app_nil_r. reflexivity. }
  split; [exact Hclose|].
  rewrite Hclose. cbn [snd].
  set (data := firstn (Z.to_nat (index.size idx)) (index.mmap idx)).
  assert (Hdata : len data = index.size idx) by (apply len_firstn; exact Hs).
  unfold index.newIndex. cbn [fdata fileName].
  rewrite i64_small by lia.
  replace (MaxIndexBytes (Segment c) <? 0) with false by (symmetry; apply Z.ltb_ge; lia).
  replace (MaxIndexBytes (Segment c) =? 0) with false by (symmetry; apply Z.eqb_neq; lia).
  eexists. split; [reflexivity|]. cbn [index.file index.size index.mmap].
  split; [reflexivity|]. split; [rewrite Hdata; apply u64_small; lia|].
  split; [apply len_resize; lia|].
  intros Hle. unfold resize.
  rewrite firstn_app, firstn_firstn.
  rewrite Nat.min_l by lia.
  replace (Z.to_nat (index.size idx)
           - length (firstn (Z.to_nat (MaxIndexBytes (Segment c))) data))%nat
    with 0%nat
    by (rewrite length_firstn; unfold len in Hdata; lia).
  cbn [firstn]. rewrite app_nil_r.
  unfold data. rewrite firstn_firstn, Nat.min_id. reflexivity.
Qed.

(** X14: Closing an index and mapping its file again gives the index back: the
    file is cut to [size] bytes, and [newIndex] over it resumes with the same
    [size], a region of [MaxIndexBytes] bytes, and the same entries. *)
Theorem index_Close_then_newIndex
  (idx : index.index) (c : Config) (space : Z) :
  0 <= index.size idx <= len (index.mmap idx) ->
  index.size idx < 2 ^ 63 ->
  0 < MaxIndexBytes (Segment c) < 2 ^ 63 ->
  index.Close idx = (None, firstn (Z.to_nat (index.size idx)) (index.mmap idx)) /\
  exists idx',
    index.newIndex (mkFile (index.file idx) (snd (index.Close idx)) space) c = Ok idx' /\
    index.file idx' = index.file idx /\
    index.size idx' = index.size idx /\
    len (index.mmap idx') = MaxIndexBytes (Segment c) /\
    (index.size idx <= MaxIndexBytes (Segment c) ->
     firstn (Z.to_nat (index.size idx)) (index.mmap idx')
       = firstn (Z.to_nat (index.size idx)) (index.mmap idx)).
Proof.
  intros Hs Hb Hmax.
  destruct (index_reopen idx c space Hs Hb Hmax) as [Hclose Hnew].
  split; [exact Hclose | exact Hnew].
Qed.

Lemma index_Close_then_newIndex_witness :
  index.Close fullIndex
    = (None, firstn (Z.to_nat (index.size fullIndex)) (index.mmap fullIndex)) /\
  exists idx',
    index.newIndex (mkFile (index.file fullIndex) (snd (index.Close fullIndex)) 0)
                   testConfig = Ok idx' /\
    index.file idx' = index.file fullIndex /\
    index.size idx' = index.size fullIndex /\
    len (index.mmap idx') = MaxIndexBytes (Segment testConfig) /\
    (index.size fullIndex <= MaxIndexBytes (Segment testConfig) ->
     firstn (Z.to_nat (index.size fullIndex)) (index.mmap idx')
       = firstn (Z.to_nat (index.size fullIndex)) (index.mmap fullIndex)).
Proof.
  apply (index_Close_then_newIndex fullIndex testConfig 0).
  - vm_compute. split; discriminate.
  - vm_compute. reflexivity.
  - vm_compute. split; reflexivity.
Defined.

(** ** The segment, continued *)

(** X15: [nearestMultiple] rounds down: for a multiple that is not 0 it returns
    the largest multiple of it that is not above the number, and it panics
    on the multiple 0. *)
Theorem segment_nearestMultiple_rounds_down
  (s : segment.segment) (numToCheck desiredMultiple : Z) :
  0 <= numToCheck < 2 ^ 64 ->
  0 <= desiredMultiple < 2 ^ 64 ->
  (desiredMultiple = 0 ->
   segment.nearestMultiple s numToCheck desiredMultiple = Panic) /\
  (0 < desiredMultiple ->
   exists v,
     segment.nearestMultiple s numToCheck desiredMultiple = Ok v /\
     v mod desiredMultiple = 0 /\
     v <= numToCheck < v + desiredMultiple).
Proof.
  intros Hn Hm. unfold segment.nearestMultiple.
  replace (numToCheck <? 0) with false by (symmetry; apply Z.ltb_ge; lia).
  split.
  - intros ->. reflexivity.
  - intros Hpos.
    replace (desiredMultiple =? 0) with false by (symmetry; apply Z.eqb_neq; lia).
    pose proof (Z.div_mod numToCheck desiredMultiple ltac:(lia)) as Hdm.
    pose proof (Z.mod_pos_bound numToCheck desiredMultiple Hpos) as Hr.
    assert (Hq : 0 <= numToCheck / desiredMultiple) by (apply Z.div_pos; lia).
    exists (numToCheck / desiredMultiple * desiredMultiple).
    split; [|split].
    + rewrite u64_small; [reflexivity | nia].
    + apply Z.mod_mul. lia.
    + nia.
Qed.

Lemma segment_nearestMultiple_rounds_down_witness :
  (4 = 0 -> segment.nearestMultiple (mkSegmentOf testDir 16 testConfig) 6 4 = Panic) /\
  (0 < 4 ->
   exists v,
     segment.nearestMultiple (mkSegmentOf testDir 16 testConfig) 6 4 = Ok v /\
     v mod 4 = 0 /\ v <= 6 < v + 4).
Proof.
  apply (segment_nearestMultiple_rounds_down (mkSegmentOf testDir 16 testConfig) 6 4); lia.
Defined.

Lemma fname_eqb_eq (a b : fname) : fname_eqb a b = true <-> a = b.
Proof.
  destruct a as [x | x], b as [y | y]; cbn [fname_eqb];
    try (split; [discriminate | intros H; discriminate]).
  - rewrite Z.eqb_eq. split; [intros ->; reflexivity | intros H; injection H; auto].
  - rewrite Z.eqb_eq. split; [intros ->; reflexivity | intros H; injection H; auto].
Qed.


Lemma fname_eqb_refl (a : fname) : fname_eqb a a = true.
Proof. apply fname_eqb_eq. reflexivity. Qed.



Section MoreWithCodec.

Context {codec : Codec}.




End MoreWithCodec.


(** The segment that [newSegment] makes where there are no files. *)
Lemma newSegment_fresh_eq (d : dir) (B : Z) (c : Config) (s : segment.segment) :
  fresh d B ->
  segment.newSegment d B c = Ok s ->
  0 < i64 (MaxIndexBytes (Segment c)) /\
  s = segment.mkSegment
        (store.mkStore (bufio.NewWriter (mkFile (StoreName B) [] (free d))) 0)
        (index.mkIndex (IndexName B) (resize (i64 (MaxIndexBytes (Segment c))) []) 0)
        B B c.
Proof.
  unfold segment.newSegment, store.newStore, index.newIndex, OpenFile.
  intros [Hst Hix] H. rewrite Hst, Hix in H. cbn [fdata fileName] in H.
  destruct (i64 (MaxIndexBytes (Segment c)) <? 0) eqn:Hneg; [discriminate|].
  destruct (i64 (MaxIndexBytes (Segment c)) =? 0) eqn:Hz; [discriminate|].
  apply Z.ltb_ge in Hneg. apply Z.eqb_neq in Hz.
  rewrite index_Read_empty in H by reflexivity.
  injection H as <-. split; [lia | reflexivity].
Qed.

Section SegmentIndex.

Context {codec : Codec}.

(** What an append does to the index: an entry more when it succeeds,
    nothing when it does not; it never panics in the index. *)
Lemma segment_Append_index
  (s s' : segment.segment) (r : api.record) (o : outcome Z) :
  index_ok (segment.index s) ->
  segment.Append s r = (o, s') ->
  segment.config s' = segment.config s /\
  index_ok (segment.index s') /\
  len (index.mmap (segment.index s')) = len (index.mmap (segment.index s)) /\
  ((is_Ok o = true /\
    index.size (segment.index s') = index.size (segment.index s) + entryWidth /\
    index.size (segment.index s') <= len (index.mmap (segment.index s))) \/
   (is_Ok o = false /\ segment.index s' = segment.index s)).
Proof.
  intros Hok H. pose proof Hok as [Hs Hm].
  assert (Hw : entryWidth = 12) by reflexivity.
  unfold segment.Append in H.
  destruct (Marshal _) as [p | e |].
  - destruct (store.Append (segment.store s) p) as [r' st].
    destruct (index.Write _ _ _) as [w idx] eqn:Hwr.
    pose proof (index_size_bound_Write _ _ _ _ _ Hok Hwr) as Hok'.
    apply index_Write_keeps in Hwr; [|lia|lia].
    destruct Hwr as [_ [Hlen [_ Hcase]]].
    destruct Hcase as [[-> [Hsize Hfit]] | [-> ->]].
    + injection H as <- <-. cbn [segment.config segment.index is_Ok].
      split; [reflexivity|]. split; [exact Hok'|]. split; [exact Hlen|].
      left. split; [reflexivity|]. split; assumption.
    + injection H as <- <-. cbn [segment.config segment.index is_Ok].
      split; [reflexivity|]. split; [exact Hok|]. split; [reflexivity|].
      right. split; reflexivity.
  - injection H as <- <-.
    split; [reflexivity|]. split; [exact Hok|]. split; [reflexivity|].
    right. split; reflexivity.
  - injection H as <- <-.
    split; [reflexivity|]. split; [exact Hok|]. split; [reflexivity|].
    right. split; reflexivity.
Qed.

Lemma segment_Appends_index (rs : list api.record) :
  forall s os s',
    index_ok (segment.index s) ->
    segment.Appends s rs = (os, s') ->
    segment.config s' = segment.config s /\
    len (index.mmap (segment.index s')) = len (index.mmap (segment.index s)) /\
    index.size (segment.index s')
      = index.size (segment.index s) + entryWidth * len (successes os) /\
    (index.size (segment.index s) <= len (index.mmap (segment.index s)) ->
     index.size (segment.index s') <= len (index.mmap (segment.index s'))).
Proof.
  assert (Hw : entryWidth = 12) by reflexivity.
  induction rs as [|r rs IH]; intros s os s' Hok H.
  - injection H as <- <-. cbn. repeat split; lia.
  - rewrite segment_Appends_cons in H.
    destruct (segment.Append s r) as [o s1] eqn:Ha.
    apply segment_Append_index in Ha; [|exact Hok].
    destruct Ha as [Hc [Hok1 [Hlen Hcase]]].
    destruct (segment.Appends s1 rs) as [os1 s2] eqn:Hrun.
    specialize (IH s1 os1 s2 Hok1 Hrun).
    destruct IH as [Hc2 [Hlen2 [Hsize2 Hfit2]]].
    destruct Hcase as [[Ho [Hsize Hfit]] | [Ho Hsame]].
    + destruct o as [a | e |]; try discriminate.
      injection H as <- <-. cbn [successes].
      split; [congruence|]. split; [congruence|]. split.
      * rewrite Hsize2, Hsize. unfold len. cbn [length]. lia.
      * intros _. apply Hfit2. lia.
    + destruct o as [a | e |]; try discriminate; injection H as <- <-.
      * cbn [successes]. rewrite Hsame in *.
        split; [congruence|]. split; [assumption|]. split; assumption.
      * cbn [successes]. rewrite Hsame.
        split; [assumption|]. split; [reflexivity|].
        split; [unfold len; cbn [length]; lia | tauto].
Qed.

Lemma segment_fresh_index_size
  (d : dir) (B : Z) (c : Config) (s s' : segment.segment)
  (rs : list api.record) (os : list (outcome Z)) :
  fresh d B ->
  0 < MaxIndexBytes (Segment c) < 2 ^ 63 ->
  segment.newSegment d B c = Ok s ->
  segment.Appends s rs = (os, s') ->
  segment.config s' = c /\
  index.size (segment.index s') = entryWidth * len (successes os) /\
  entryWidth * len (successes os) <= MaxIndexBytes (Segment c).
Proof.
  intros Hfresh Hmax Hnew Hrun.
  destruct (newSegment_fresh_eq d B c s Hfresh Hnew) as [_ ->].
  rewrite i64_small in Hrun by lia.
  apply segment_Appends_index in Hrun.
  - cbn [segment.index segment.config index.size index.mmap] in Hrun.
    rewrite len_resize in Hrun by lia.
    destruct Hrun as [Hc [Hlen [Hsize Hfit]]].
    specialize (Hfit ltac:(lia)). rewrite Hlen in Hfit.
    rewrite Z.add_0_l in Hsize.
    split; [exact Hc|]. split; [exact Hsize|]. rewrite <- Hsize. exact Hfit.
  - split; cbn [segment.index index.size index.mmap]; [lia|].
    rewrite len_resize by lia. lia.
Qed.

(** X17: On a segment created over no files, the size of the index is the number
    of successful appends times [entryWidth] and never exceeds
    [MaxIndexBytes]: the index half of [IsMaxed] holds exactly when the
    entries fill [MaxIndexBytes] to the byte. *)
Theorem segment_IsMaxed_counts_appends
  (d : dir) (B : Z) (c : Config) (s s' : segment.segment)
  (rs : list api.record) (os : list (outcome Z)) :
  fresh d B ->
  0 < MaxIndexBytes (Segment c) < 2 ^ 63 ->
  segment.newSegment d B c = Ok s ->
  segment.Appends s rs = (os, s') ->
  index.size (segment.index s') = entryWidth * len (successes os) /\
  entryWidth * len (successes os) <= MaxIndexBytes (Segment c) /\
  segment.IsMaxed s'
    = (store.size (segment.store s') >=? MaxStoreBytes (Segment c))
      || (entryWidth * len (successes os) =? MaxIndexBytes (Segment c)).
Proof.
  intros Hfresh Hmax Hnew Hrun.
  destruct (segment_fresh_index_size d B c s s' rs os Hfresh Hmax Hnew Hrun)
    as [Hc [Hsize Hfit]].
  split; [exact Hsize|]. split; [exact Hfit|].
  unfold segment.IsMaxed. rewrite Hc, Hsize. f_equal.
  rewrite Z.geb_leb.
  destruct (Z.eqb_spec (entryWidth * len (successes os)) (MaxIndexBytes (Segment c)));
    [apply Z.leb_le | apply Z.leb_gt]; lia.
Qed.

(** X18: When the index has no room for one more entry, an append whose record
    is marshalled returns [EOF] and keeps [nextOffset] and the index, and the
    frame of the record has gone to the store all the same. *)
Theorem segment_Append_index_full
  (s : segment.segment) (r : api.record) (p : list byte) :
  index_ok (segment.index s) ->
  len (index.mmap (segment.index s)) < index.size (segment.index s) + entryWidth ->
  Marshal (api.mkRecord (api.Value r) (segment.nextOffset s)) = Ok p ->
  segment.Append s r
  = (Err EOF,
     segment.mkSegment (snd (store.Append (segment.store s) p)) (segment.index s)
                       (segment.baseOffset s) (segment.nextOffset s)
                       (segment.config s)).
Proof.
  intros [Hs Hm] Hfull Hp. unfold segment.Append. rewrite Hp.
  destruct (store.Append (segment.store s) p) as [r' st]. cbn [snd].
  rewrite index_Write_full by (unfold entryWidth, offWidth, posWidth in *; lia).
  reflexivity.
Qed.

End SegmentIndex.

Lemma segment_IsMaxed_counts_appends_witness :
  index.size (segment.index
                (snd (segment.Appends (codec := frameCodec)
                        (mkSegmentOf testDir 16 testConfig) [want; want; want])))
    = entryWidth * len (successes [Ok 16; Ok 17; Ok 18]) /\
  entryWidth * len (successes [Ok 16; Ok 17; Ok 18])
    <= MaxIndexBytes (Segment testConfig) /\
  segment.IsMaxed (snd (segment.Appends (codec := frameCodec)
                          (mkSegmentOf testDir 16 testConfig) [want; want; want]))
    = (store.size (segment.store
                     (snd (segment.Appends (codec := frameCodec)
                             (mkSegmentOf testDir 16 testConfig) [want; want; want])))
         >=? MaxStoreBytes (Segment testConfig))
      || (entryWidth * len (successes [Ok 16; Ok 17; Ok 18])
            =? MaxIndexBytes (Segment testConfig)).
Proof.
  apply (segment_IsMaxed_counts_appends (codec := frameCodec) testDir 16 testConfig
           (mkSegmentOf testDir 16 testConfig) _ [want; want; want]).
  - split; reflexivity.
  - vm_compute. split; reflexivity.
  - vm_compute. reflexivity.
  - vm_compute. reflexivity.
Defined.

Lemma segment_Append_index_full_witness :
  fst (segment.Append (codec := frameCodec)
         (snd (segment.Appends (codec := frameCodec)
                 (mkSegmentOf testDir 16 testConfig) [want; want; want])) want)
  = Err EOF.
Proof.
  rewrite (segment_Append_index_full (codec := frameCodec)
             (snd (segment.Appends (codec := frameCodec)
                     (mkSegmentOf testDir 16 testConfig) [want; want; want]))
             want (enc.PutUint64 19 ++ hello)).
  - reflexivity.
  - vm_compute. repeat split; discriminate.
  - vm_compute. reflexivity.
  - vm_compute. reflexivity.
Defined.

Section FirstRecord.

Context {codec : Codec}.

(** The first append on a segment created over no files, when the device has
    room for the frame and the index for an entry: the result, and the
    segment it leaves. *)
Lemma segment_first_Append
  (d : dir) (B : Z) (c : Config) (s : segment.segment) (r : api.record)
  (p : list byte) :
  0 <= B < 2 ^ 64 ->
  fresh d B ->
  entryWidth <= MaxIndexBytes (Segment c) < 2 ^ 63 ->
  segment.newSegment d B c = Ok s ->
  Marshal (api.mkRecord (api.Value r) B) = Ok p ->
  len p + lenWidth <= free d ->
  exists st1,
    store.Append (store.mkStore (bufio.NewWriter (mkFile (StoreName B) [] (free d))) 0) p
      = (Ok (u64 (len p + lenWidth), 0), st1) /\
    segment.Append s r
      = (Ok B,
         segment.mkSegment st1
           (written (index.mkIndex (IndexName B)
                                   (resize (MaxIndexBytes (Segment c)) []) 0) 0 0)
           B (u64 (B + 1)) c).
Proof.
  intros HB Hfresh Hmax Hnew Hp Hroom.
  assert (Hw : entryWidth = 12) by reflexivity.
  destruct (newSegment_fresh_eq d B c s Hfresh Hnew) as [_ ->].
  rewrite i64_small by lia.
  set (st0 := store.mkStore (bufio.NewWriter (mkFile (StoreName B) [] (free d))) 0).
  set (idx0 := index.mkIndex (IndexName B) (resize (MaxIndexBytes (Segment c)) []) 0).
  pose proof (store_Append_fits st0 p eq_refl) as Hst.
  destruct (store.Append st0 p) as [r1 st1] eqn:Ha. cbn [fst] in Hst.
  rewrite Hst in * by (cbn; exact Hroom).
  exists st1. split; [reflexivity|].
  unfold segment.Append.
  cbn [segment.nextOffset segment.baseOffset segment.store segment.index segment.config].
  rewrite Hp, Ha.
  rewrite (u64_small B) by exact HB. rewrite Z.sub_diag.
  change (u32 (u64 0)) with 0.
  rewrite index_Write_room; [reflexivity | cbn; lia | cbn; lia |].
  unfold idx0. cbn [index.size index.mmap]. rewrite len_resize by lia. lia.
Qed.

(** X19: The first record round-trips: on a segment created over no files, with
    room on the device for the frame and in the index for an entry, the
    append of a record returns the base offset, and the read of the base
    offset returns what the codec decodes from the bytes it has encoded. *)
Theorem segment_first_record_round_trip
  (d : dir) (B : Z) (c : Config) (s : segment.segment) (r : api.record)
  (p : list byte) :
  0 <= B < 2 ^ 64 ->
  fresh d B ->
  entryWidth <= MaxIndexBytes (Segment c) < 2 ^ 63 ->
  segment.newSegment d B c = Ok s ->
  Marshal (api.mkRecord (api.Value r) B) = Ok p ->
  len p + lenWidth <= free d ->
  len p <= maxAlloc ->
  fst (segment.Append s r) = Ok B /\
  fst (segment.Read (snd (segment.Append s r)) B) = Unmarshal p.
Proof.
  intros HB Hfresh Hmax Hnew Hp Hroom Hsmall.
  destruct (segment_first_Append d B c s r p HB Hfresh Hmax Hnew Hp Hroom)
    as (st1 & Hst & Ha).
  rewrite Ha. cbn [fst snd]. split; [reflexivity|].
  unfold segment.Read.
  cbn [segment.index segment.baseOffset segment.store segment.nextOffset segment.config].
  rewrite Z.sub_diag. change (i64 (u64 0)) with 0.
  destruct (index_Read_first_written
              (index.mkIndex (IndexName B) (resize (MaxIndexBytes (Segment c)) []) 0)
              0 0 eq_refl) as [Hr0 _].
  rewrite Hr0. change (u64 0) with 0.
  assert (Hread : fst (store.Read st1 0) = Ok p).
  { pose proof (len_nonneg p) as Hlp.
    assert (Hma : maxAlloc = 2 ^ 48) by reflexivity.
    pose proof (store_Append_data _ _ _ _ Hst) as [_ [He1 [Hc1 Hslack]]].
    cbn in Hslack.
    cbn [contents store.File store.buf bufio.NewWriter bufio.wr bufio.buf fdata app]
      in Hc1.
    rewrite (u64_small (len p)) in Hc1 by lia.
    apply (store_Read_frame st1 [] [] p).
    - exact He1.
    - unfold flushable. lia.
    - rewrite Hc1. unfold frame. rewrite app_nil_r. reflexivity.
    - reflexivity.
    - exact Hsmall. }
  destruct (store.Read st1 0) as [r2 st2]. cbn [fst] in Hread. subst r2.
  reflexivity.
Qed.

End FirstRecord.

Lemma segment_first_record_round_trip_witness :
  fst (segment.Append (codec := frameCodec) (mkSegmentOf testDir 16 testConfig) want)
    = Ok 16 /\
  fst (segment.Read (codec := frameCodec)
         (snd (segment.Append (codec := frameCodec)
                 (mkSegmentOf testDir 16 testConfig) want)) 16)
    = frameUnmarshal (enc.PutUint64 16 ++ hello).
Proof.
  apply (segment_first_record_round_trip (codec := frameCodec) testDir 16 testConfig
           (mkSegmentOf testDir 16 testConfig) want (enc.PutUint64 16 ++ hello)).
  - lia.
  - split; reflexivity.
  - vm_compute. split; [discriminate | reflexivity].
  - vm_compute. reflexivity.
  - vm_compute. reflexivity.
  - vm_compute. discriminate.
  - vm_compute. discriminate.
Defined.

Lemma firstn_written (idx : index.index) (offset storePosition : Z) :
  0 <= index.size idx <= len (index.mmap idx) ->
  firstn (Z.to_nat (index.size idx + entryWidth))
         (index.mmap (written idx offset storePosition))
  = firstn (Z.to_nat (index.size idx)) (index.mmap idx)
      ++ enc.PutUint32 offset ++ enc.PutUint64 storePosition.
Proof.
  intros Hs. unfold written. cbn [index.mmap].
  set (a := firstn (Z.to_nat (index.size idx)) (index.mmap idx)).
  assert (Ha : len a = index.size idx) by (apply len_firstn; exact Hs).
  rewrite !app_assoc.
  rewrite firstn_app.
  assert (Hl : length ((a ++ enc.PutUint32 offset) ++ enc.PutUint64 storePosition)
               = Z.to_nat (index.size idx + entryWidth)).
  { rewrite !length_app. unfold len in Ha. cbn [enc.PutUint32 enc.PutUint64 length].
    unfold entryWidth, offWidth, posWidth. lia. }
  rewrite <- Hl, firstn_all, Nat.sub_diag. cbn [firstn]. apply app_nil_r.
Qed.

Lemma store_Close_ok (s : store.store) :
  bufio.err (store.buf s) = None -> flushable s ->
  exists st,
    store.Close s = (None, st) /\
    store.Name st = store.Name s /\
    fdata (store.File st) = contents s /\
    room (store.File st) = room (store.File s) - len (bufio.buf (store.buf s)).
Proof.
  intros He Hfl. unfold store.Close.
  pose proof (bufio_Flush_fits (store.buf s) He Hfl) as Hok.
  pose proof (bufio_Flush_fileName (store.buf s)) as Hname.
  destruct (bufio.Flush (store.buf s)) as [o b] eqn:Hf.
  cbn [fst snd] in *. subst o.
  apply bufio_Flush_ok in Hf. destruct Hf as [_ [_ [_ [Hd Hr]]]].
  eexists. split; [reflexivity|].
  unfold store.Name, store.File, contents. cbn [store.buf].
  repeat split; assumption.
Qed.

Lemma newSegment_over (d : dir) (B : Z) (c : Config) (sdata idata : list byte) :
  files d (StoreName B) = Some sdata ->
  files d (IndexName B) = Some idata ->
  segment.newSegment d B c
  = match index.newIndex (mkFile (IndexName B) idata (free d)) c with
    | Err e => Err e
    | Panic => Panic
    | Ok idx =>
        let st := store.mkStore (bufio.NewWriter (mkFile (StoreName B) sdata (free d)))
                                (u64 (len sdata)) in
        match index.Read idx (-1) with
        | Panic => Panic
        | Err _ => Ok (segment.mkSegment st idx B B c)
        | Ok (off, _) =>
            Ok (segment.mkSegment st idx B (u64 (u64 (B + u64 off) + 1)) c)
        end
    end.
Proof.
  intros Hs Hi. unfold segment.newSegment, store.newStore, OpenFile.
  rewrite Hs, Hi. reflexivity.
Qed.

Section Reopen.

Context {codec : Codec}.

(** X20: A segment with one record resumes: when a segment created over no files
    is closed after its first append, the close succeeds, and [newSegment]
    over the directory it leaves returns a segment with the same base
    offset, with [nextOffset] one past it, and on which the read of the base
    offset returns the record. *)
Theorem segment_reopen_after_first_append
  (d d0 d' : dir) (B : Z) (c : Config) (s : segment.segment) (r : api.record)
  (p : list byte) (e : option error) :
  0 <= B < 2 ^ 64 ->
  fresh d B ->
  entryWidth <= MaxIndexBytes (Segment c) < 2 ^ 63 ->
  segment.newSegment d B c = Ok s ->
  Marshal (api.mkRecord (api.Value r) B) = Ok p ->
  len p + lenWidth <= free d ->
  len p <= maxAlloc ->
  segment.Close (snd (segment.Append s r)) d0 = (e, d') ->
  e = None /\
  exists s2,
    segment.newSegment d' B c = Ok s2 /\
    segment.baseOffset s2 = B /\
    segment.nextOffset s2 = u64 (B + 1) /\
    fst (segment.Read s2 B) = Unmarshal p.
Proof.
  intros HB Hfresh Hmax Hnew Hp Hroom Hsmall Hclose.
  assert (Hw : entryWidth = 12) by reflexivity.
  assert (Hlw : lenWidth = 8) by reflexivity.
  assert (Hma : maxAlloc = 2 ^ 48) by reflexivity.
  pose proof (len_nonneg p) as Hlp.
  destruct (segment_first_Append d B c s r p HB Hfresh Hmax Hnew Hp Hroom)
    as (st1 & Hst & Ha).
  rewrite Ha in Hclose. cbn [snd] in Hclose.
  set (idx0 := index.mkIndex (IndexName B) (resize (MaxIndexBytes (Segment c)) []) 0) in *.
  set (idx1 := written idx0 0 0) in *.
  (* the store after the append *)
  pose proof (store_Append_data _ _ _ _ Hst) as [_ [He1 [Hc1 Hslack]]].
  cbn in Hslack. cbn [contents store.File store.buf bufio.NewWriter bufio.wr bufio.buf
                      fdata app] in Hc1.
  rewrite (u64_small (len p)) in Hc1 by lia.
  assert (Hfl1 : flushable st1) by (unfold flushable; lia).
  pose proof (store_Append_Name
                (store.mkStore (bufio.NewWriter (mkFile (StoreName B) [] (free d))) 0) p)
    as Hn1.
  rewrite Hst in Hn1. cbn in Hn1.
  destruct (store_Close_ok st1 He1 Hfl1) as (st2 & Hcl & Hn2 & Hd2 & Hr2).
  (* the index after the append *)
  assert (Hlen0 : len (index.mmap idx0) = MaxIndexBytes (Segment c))
    by (unfold idx0; cbn [index.mmap]; apply len_resize; lia).
  assert (Hsz0 : index.size idx0 = 0) by reflexivity.
  assert (Hsz1 : index.size idx1 = index.size idx0 + entryWidth) by reflexivity.
  assert (Hlen1 : len (index.mmap idx1) = MaxIndexBytes (Segment c))
    by (unfold idx1; rewrite len_written; [exact Hlen0 | lia | lia]).
  destruct (index_reopen idx1 c (room (store.File st2)))
    as [Hic (idx2 & Hni & Hf2 & Hs2 & Hl2 & Hold)];
    [lia | lia | lia |].
  specialize (Hold ltac:(lia)).
  rewrite Hsz1 in Hold. unfold idx1 in Hold.
  rewrite (firstn_written idx0 0 0) in Hold by lia.
  change (firstn (Z.to_nat (index.size idx0)) (index.mmap idx0)) with (@nil byte) in Hold.
  cbn [app] in Hold.
  assert (Hm2 : index.mmap idx2
                = enc.PutUint32 0 ++ enc.PutUint64 0
                    ++ skipn (Z.to_nat (index.size idx0 + entryWidth)) (index.mmap idx2)).
  { rewrite <- (firstn_skipn (Z.to_nat (index.size idx0 + entryWidth)) (index.mmap idx2))
      at 1.
    rewrite Hold, <- app_assoc. reflexivity. }
  (* the close *)
  unfold segment.Close in Hclose.
  cbn [segment.index segment.store] in Hclose.
  rewrite Hic, Hcl in Hclose. cbv beta iota zeta in Hclose.
  rewrite Hn2, Hn1, Hd2, Hc1 in Hclose.
  change (index.Name idx1) with (IndexName B) in Hclose.
  injection Hclose as <- <-.
  split; [reflexivity|].
  (* the segment over the directory *)
  rewrite (newSegment_over _ B c (enc.PutUint64 (len p) ++ p)
             (firstn (Z.to_nat (index.size idx1)) (index.mmap idx1))).
  2:{ cbn [files writeFile]. rewrite fname_eqb_refl. reflexivity. }
  2:{ cbn [files writeFile fname_eqb]. rewrite Z.eqb_refl. reflexivity. }
  cbn [free].
  rewrite Hic in Hni. cbn [snd] in Hni.
  change (index.file idx1) with (IndexName B) in Hni.
  rewrite Hni. cbv zeta.
  destruct (index_Read_first idx2 0 0 _ Hm2) as [Hr0 Hr1].
  { rewrite Hs2. lia. }
  rewrite Hr1 by (rewrite Hs2; reflexivity).
  change (u32 0) with 0. change (u64 0) with 0.
  eexists. split; [reflexivity|].
  cbn [segment.baseOffset segment.nextOffset].
  split; [reflexivity|]. split.
  { rewrite Z.add_0_r, u64_add_l. reflexivity. }
  unfold segment.Read.
  cbn [segment.index segment.baseOffset segment.store segment.nextOffset segment.config].
  rewrite Z.sub_diag. change (i64 (u64 0)) with 0.
  rewrite Hr0. change (u32 0) with 0. change (u64 0) with 0.
  set (st3 := store.mkStore _ _).
  assert (Hread : fst (store.Read st3 0) = Ok p).
  { apply (store_Read_frame st3 [] [] p).
    - reflexivity.
    - unfold flushable, st3. cbn. lia.
    - unfold st3, contents, frame. cbn. rewrite !app_nil_r. reflexivity.
    - cbn. lia.
    - exact Hsmall. }
  destruct (store.Read st3 0) as [r3 st4]. cbn [fst] in Hread. subst r3.
  reflexivity.
Qed.

End Reopen.

Lemma segment_reopen_after_first_append_witness :
  fst (segment.Close
         (snd (segment.Append (codec := frameCodec)
                 (mkSegmentOf testDir 16 testConfig) want)) testDir) = None /\
  exists s2,
    segment.newSegment
      (snd (segment.Close
              (snd (segment.Append (codec := frameCodec)
                      (mkSegmentOf testDir 16 testConfig) want)) testDir))
      16 testConfig = Ok s2 /\
    segment.baseOffset s2 = 16 /\
    segment.nextOffset s2 = u64 (16 + 1) /\
    fst (segment.Read (codec := frameCodec) s2 16)
      = frameUnmarshal (enc.PutUint64 16 ++ hello).
Proof.
  apply (segment_reopen_after_first_append (codec := frameCodec)
           testDir testDir _ 16 testConfig (mkSegmentOf testDir 16 testConfig)
           want (enc.PutUint64 16 ++ hello)).
  - lia.
  - split; reflexivity.
  - vm_compute. split; [discriminate | reflexivity].
  - vm_compute. reflexivity.
  - vm_compute. reflexivity.
  - vm_compute. discriminate.
  - vm_compute. discriminate.
  - apply surjective_pairing.
Defined.

(** ** The store: positions, raw reads and reopening *)

(** X7: Frames are laid end to end: on a store made by [newStore] over a file,
    after a run of successful appends, the next successful append returns
    the length of its frame and, as its position, the length of the file
    plus the lengths of the frames before it. *)
Theorem store_Append_position
  (f : osfile) (s s1 s2 : store.store) (ds : list (list byte)) (data : list byte)
  (bytesWritten pos : Z) :
  store.newStore f = Ok s ->
  store_Appends s ds = Some s1 ->
  store.Append s1 data = (Ok (bytesWritten, pos), s2) ->
  len (fdata f ++ concat (map frame ds) ++ frame data) < 2 ^ 64 ->
  bytesWritten = len (frame data) /\
  pos = len (fdata f ++ concat (map frame ds)).
Proof.
  unfold store.newStore. intros Hnew Hrun Ha Hfit. injection Hnew as <-.
  pose proof (len_nonneg (fdata f)) as Hf.
  pose proof (len_nonneg (concat (map frame ds))) as Hr.
  pose proof (len_nonneg (frame data)) as Hfr.
  rewrite !len_app in Hfit.
  set (s0 := store.mkStore (bufio.NewWriter f) (u64 (len (fdata f)))) in *.
  assert (Hc : contents s0 = fdata f) by (unfold contents; cbn; apply app_nil_r).
  destruct (store_Appends_ok ds s0 s1) as [Hok1 Hc1].
  - split; [reflexivity|]. cbn [store.size s0]. rewrite Hc. apply u64_small. lia.
  - exact Hrun.
  - rewrite Hc, len_app. lia.
  - apply store_Append_ok_inv in Ha; [|exact Hok1|].
    + destruct Ha as [_ [_ Hr']]. injection Hr' as -> ->.
      rewrite Hc1, Hc. split; [|reflexivity].
      unfold frame. rewrite len_app, len_PutUint64. unfold posWidth, lenWidth. lia.
    + rewrite Hc1, Hc, !len_app. lia.
Qed.

Lemma store_Append_position_witness :
  19 = len (frame hello) /\
  38 = len (fdata (OpenFile testDir (StoreName 16)) ++ concat (map frame [hello; hello])).
Proof.
  apply (store_Append_position (OpenFile testDir (StoreName 16)) testStore
           (snd (store.Append (snd (store.Append testStore hello)) hello))
           (snd (store.Append
                   (snd (store.Append (snd (store.Append testStore hello)) hello)) hello))
           [hello; hello] hello 19 38).
  - reflexivity.
  - vm_compute. reflexivity.
  - vm_compute. reflexivity.
  - vm_compute. reflexivity.
Defined.

(** X8: [store.ReadAt] reads the contents of the store, the bytes still in the
    buffer included: a read that lies within the contents returns exactly
    those bytes, their number and no error, as long as the device has room
    for the flush. *)
Theorem store_ReadAt_contents (s : store.store) (n offset : Z) :
  bufio.err (store.buf s) = None -> flushable s ->
  0 <= offset -> 0 <= n -> offset + n <= len (contents s) ->
  fst (store.ReadAt s n offset)
  = (firstn (Z.to_nat n) (skipn (Z.to_nat offset) (contents s)), n, None).
Proof.
  intros He Hfl Hoff Hn Hin.
  destruct (store_flush s He Hfl) as (b & Hf & _ & _ & Hd).
  unfold store.ReadAt. rewrite Hf. unfold store.File. cbn [store.buf].
  unfold File.ReadAt.
  replace (offset <? 0) with false by (symmetry; apply Z.ltb_ge; exact Hoff).
  rewrite Hd.
  set (got := firstn (Z.to_nat n) (skipn (Z.to_nat offset) (contents s))).
  assert (Hgot : len got = n).
  { unfold got. rewrite len_firstn; [reflexivity|]. rewrite len_skipn; lia. }
  fold got. rewrite Hgot, Z.ltb_irrefl. cbn [fst]. rewrite Hgot. reflexivity.
Qed.

Lemma store_ReadAt_contents_witness :
  fst (store.ReadAt (snd (store.Append testStore hello)) 11 8) = (hello, 11, None).
Proof.
  apply (store_ReadAt_contents (snd (store.Append testStore hello)) 11 8).
  - reflexivity.
  - vm_compute. discriminate.
  - lia.
  - lia.
  - vm_compute. discriminate.
Defined.

(** X9: A store resumes: when a store is closed without error, [newStore] over
    its file returns a store with the same size and the same contents, and
    an empty buffer. *)
Theorem store_Close_then_newStore (s st : store.store) :
  store_ok s ->
  store.size s < 2 ^ 64 ->
  store.Close s = (None, st) ->
  exists s',
    store.newStore (store.File st) = Ok s' /\
    store.size s' = store.size s /\
    contents s' = contents s /\
    bufio.buf (store.buf s') = [].
Proof.
  intros [He Hsize] Hb Hclose. unfold store.Close in Hclose.
  destruct (bufio.Flush (store.buf s)) as [o b] eqn:Hf.
  injection Hclose as -> <-.
  apply bufio_Flush_ok in Hf. destruct Hf as [_ [_ [_ [Hd _]]]].
  unfold store.newStore, store.File. cbn [store.buf].
  eexists. split; [reflexivity|].
  unfold contents, store.File in *. cbn.
  rewrite app_nil_r, Hd.
  split; [|split; reflexivity].
  rewrite <- Hsize. apply u64_small.
  pose proof (len_nonneg (fdata (bufio.wr (store.buf s)) ++ bufio.buf (store.buf s))).
  lia.
Qed.

Lemma store_Close_then_newStore_witness :
  exists s',
    store.newStore (store.File (snd (store.Close (snd (store.Append testStore hello)))))
      = Ok s' /\
    store.size s' = store.size (snd (store.Append testStore hello)) /\
    contents s' = contents (snd (store.Append testStore hello)) /\
    bufio.buf (store.buf s') = [].
Proof.
  apply (store_Close_then_newStore (snd (store.Append testStore hello))).
  - split; reflexivity.
  - vm_compute. reflexivity.
  - vm_compute. reflexivity.
Defined.

Section PastEnd.

Context {codec : Codec}.

Lemma segment_Appends_nextOffset (rs : list api.record) :
  forall s os s',
    0 <= segment.nextOffset s < 2 ^ 64 ->
    segment.Appends s rs = (os, s') ->
    segment.baseOffset s' = segment.baseOffset s /\
    segment.nextOffset s' = u64 (segment.nextOffset s + len (successes os)).
Proof.
  induction rs as [|r rs IH]; intros s os s' Hr H.
  - injection H as <- <-. cbn. rewrite Z.add_0_r, u64_small by exact Hr.
    split; reflexivity.
  - rewrite segment_Appends_cons in H.
    destruct (segment.Append s r) as [o s1] eqn:Ha.
    apply segment_Append_cases in Ha. destruct Ha as [Hb Ha].
    destruct (segment.Appends s1 rs) as [os1 s2] eqn:Hrun.
    specialize (IH s1 os1 s2).
    destruct Ha as [[-> Hn] | [Ho Hn]].
    + injection H as <- <-. cbn [successes].
      destruct IH as [Hb2 Hn2]; [rewrite Hn; apply u64_range | exact Hrun |].
      split; [congruence|].
      rewrite Hn2, Hn, u64_add_l. f_equal. unfold len. cbn [length]. lia.
    + destruct o as [a | e |]; try discriminate; injection H as <- <-.
      * cbn [successes].
        destruct IH as [Hb2 Hn2]; [rewrite Hn; exact Hr | exact Hrun |].
        split; [congruence|]. rewrite Hn2, Hn. reflexivity.
      * cbn [successes]. split; [exact Hb|].
        rewrite Hn. unfold len. cbn [length]. rewrite Z.add_0_r.
        symmetry. apply u64_small. exact Hr.
Qed.

(** X21: Reads past the end fail: on a segment created over no files, after any
    run of appends of which k have succeeded, [nextOffset] is the base offset
    plus k, and the read of every offset from there up to 2^32 past the base
    offset returns [EOF]. *)
Theorem segment_Read_past_end
  (d : dir) (B : Z) (c : Config) (s s' : segment.segment)
  (rs : list api.record) (os : list (outcome Z)) (offset : Z) :
  fresh d B ->
  0 <= B ->
  0 < MaxIndexBytes (Segment c) < 2 ^ 63 ->
  segment.newSegment d B c = Ok s ->
  segment.Appends s rs = (os, s') ->
  B + len (successes os) <= offset < B + 2 ^ 32 ->
  offset < 2 ^ 64 ->
  segment.nextOffset s' = B + len (successes os) /\
  fst (segment.Read s' offset) = Err EOF.
Proof.
  intros Hfresh HB Hmax Hnew Hrun Hoff Hu.
  assert (Hw : entryWidth = 12) by reflexivity.
  pose proof (len_nonneg (successes os)) as Hk.
  destruct (segment_fresh_index_size d B c s s' rs os Hfresh Hmax Hnew Hrun)
    as [_ [Hsize _]].
  destruct (newSegment_fresh d B c s Hfresh Hnew) as [Hb Hn].
  destruct (segment_Appends_nextOffset rs s os s') as [Hb' Hn'];
    [rewrite Hn; lia | exact Hrun |].
  split.
  - rewrite Hn', Hn. apply u64_small. lia.
  - unfold segment.Read. rewrite Hb', Hb.
    rewrite u64_small by lia. rewrite i64_small by lia.
    rewrite (index_Read_EOF (segment.index s') (offset - B)).
    + reflexivity.
    + lia.
    + rewrite Hsize. lia.
Qed.

End PastEnd.

Lemma segment_Read_past_end_witness :
  segment.nextOffset
    (snd (segment.Appends (codec := frameCodec)
            (mkSegmentOf testDir 16 testConfig) [want; want; want]))
    = 16 + len (successes [Ok 16; Ok 17; Ok 18]) /\
  fst (segment.Read (codec := frameCodec)
         (snd (segment.Appends (codec := frameCodec)
                 (mkSegmentOf testDir 16 testConfig) [want; want; want])) 19)
    = Err EOF.
Proof.
  apply (segment_Read_past_end (codec := frameCodec) testDir 16 testConfig
           (mkSegmentOf testDir 16 testConfig) _ [want; want; want]).
  - split; reflexivity.
  - lia.
  - vm_compute. split; reflexivity.
  - vm_compute. reflexivity.
  - vm_compute. reflexivity.
  - vm_compute. split; [discriminate | reflexivity].
  - lia.
Defined.
